(** * Workflow execution engine (src/lib/execution/engine.ts)

    A shallow embedding of [ExecutionEngine]: the breadth-first walk of
    [executeWorkflow], the per-node protocol of [executeNode], the
    validation of [validateWorkflow], the successor query
    [getConnectedNodes], the cancellation flag set by [stop] and the
    [fetch] wrapper of [createFetchWithTimeout].

    Conventions of the embedding.
    - A JavaScript object used as a dictionary ([Record<string, unknown>],
      [nodeOutputs], [nodeExecutions]) is a [gmap] with string keys: the
      map of its own properties.  The dictionaries are plain objects, so
      that at a name of a member of [Object.prototype] a read finds the
      inherited member and a write of [__proto__] sets the prototype; the
      map tells what is read at the other names ([plainKey]), and the
      statements that read or write a dictionary at a name of their
      choice are made for those.
    - The mutable objects of one run ([execution], [nodeOutputs], the
      [AbortController]) are gathered in the record [Run], which every
      operation threads explicitly.  The wall clock is the field [now];
      only an awaited operation lets time pass.
    - A block's [run(ctx)] is a tree of its interactions with the context
      it receives ([Block]); the tree is finite, so a block that never
      settles is outside the model.  [getNodeOutput] hands out the
      registry and its slots themselves, not copies: what a block changes
      through them is a [Mutate] of its tree.
    - [Run] carries a ghost [trace]: the status changes of the nodes
      ([running], [success], [error]) and the calls of [stop], in the
      order they happen; it is never read by the engine.
    - A call of [stop] by the holder of the engine arrives while a block
      is awaiting; it is the [stopped] flag of that [Await].
    - An observer callback ([onLog], [onNodeUpdate]) is kept as far as
      it returns or throws ([Observers]); it is taken not to change the
      objects it is given.
    - Log entry ids and ISO timestamps ([Date.now], [Math.random]) are
      left out. *)

From stdpp Require Import gmap strings list fin_maps.
From Stdlib Require Import ZArith.

#[local] Set Warnings "-clear-no-such-hyp".

Open Scope string_scope.
Open Scope Z_scope.
Open Scope list_scope.

(** ** JavaScript values *)

#[warnings="-register-all"]
Inductive JsValue : Type :=
  | JUndefined
  | JNull
  | JBool (b : bool)
  | JNum (z : Z)
  | JStr (s : string)
  | JArr (items : list JsValue)
  | JObj (fields : gmap string JsValue).

Inductive JsType : Type :=
  | TUndefined | TObject | TBoolean | TNumber | TString.

Definition typeof (v : JsValue) : JsType :=
  match v with
  | JUndefined => TUndefined
  | JNull | JArr _ | JObj _ => TObject
  | JBool _ => TBoolean
  | JNum _ => TNumber
  | JStr _ => TString
  end.

Definition truthy (v : JsValue) : bool :=
  match v with
  | JUndefined | JNull => false
  | JBool b => b
  | JNum z => negb (z =? 0)
  | JStr s => negb (String.eqb s "")
  | JArr _ | JObj _ => true
  end.

Definition isArray (v : JsValue) : bool :=
  match v with JArr _ => true | _ => false end.

Definition isObjectType (t : JsType) : bool :=
  match t with TObject => true | _ => false end.

(** [result && typeof result === 'object' && !Array.isArray(result)] *)
Definition isObjectLike (result : JsValue) : bool :=
  truthy result && isObjectType (typeof result) && negb (isArray result).

(** [result as Record<string, unknown>], read only under [isObjectLike]. *)
Definition asRecord (result : JsValue) : gmap string JsValue :=
  match result with JObj fields => fields | _ => ∅ end.

(** A thrown value: an [Error] with its message, or anything else. *)
Inductive Thrown : Type :=
  | ErrorObj (msg : string)
  | NonError (v : JsValue).

(** [error instanceof Error ? error.message : 'Unknown error'] *)
Definition errorMessage (e : Thrown) : string :=
  match e with
  | ErrorObj msg => msg
  | NonError _ => "Unknown error"
  end.

Inductive Completion (A : Type) : Type :=
  | Normal (a : A)
  | Abrupt (e : Thrown).
Arguments Normal {A} a.
Arguments Abrupt {A} e.

(** The three states of a promise; [Pending] is one that never settles. *)
Inductive Promise (A : Type) : Type :=
  | Resolved (a : A)
  | Rejected (e : Thrown)
  | Pending.
Arguments Resolved {A} a.
Arguments Rejected {A} e.
Arguments Pending {A}.

(** ** Types of src/lib/types.ts *)

Record WorkflowNode : Type := {
  node_id : string;
  node_type : string;
  node_data : gmap string JsValue
}.

Record WorkflowEdge : Type := {
  edge_id : string;
  source : string;
  target : string
}.

Record Workflow : Type := {
  wf_id : string;
  wf_name : string;
  nodes : list WorkflowNode;
  edges : list WorkflowEdge;
  starterId : string
}.

Inductive ExecutionStatus : Type :=
  | Idle | Running | Success | Error | Cancelled.

Inductive LogLevel : Type :=
  | LevelInfo | LevelWarn | LevelError.

Record ExecutionLog : Type := {
  log_nodeId : option string;
  message : string;
  level : LogLevel
}.

Record NodeExecution : Type := {
  nodeId : string;
  ne_status : ExecutionStatus;
  ne_startTime : option Z;
  ne_endTime : option Z;
  ne_duration : option Z;
  outputs : option (gmap string JsValue);
  error : option string
}.

Record WorkflowExecution : Type := {
  workflowId : string;
  status : ExecutionStatus;
  startTime : Z;
  endTime : option Z;
  duration : option Z;
  logs : list ExecutionLog;
  nodeExecutions : gmap string NodeExecution
}.

Record RunContext : Type := {
  ctx_workflowId : string;
  ctx_nodeId : string;
  ctx_inputs : gmap string JsValue;
  ctx_env : gmap string string
}.

(** What [await blockConfig.run(context)] does with the capabilities of
    its context, in the order it does it.  [Mutate change] is a change
    that the block makes to the registry otherwise than by calling
    [setNodeOutput]: through an object that [getNodeOutput] returned (the
    registry itself for the id [*], a slot, a value held in a slot), or
    through an object that it has itself put into the registry.  A call
    of [log] ends with the exception of the observer, if it throws one;
    the block goes on from it as it chooses. *)
Inductive Block : Type :=
  | Return (result : JsValue)
  | Throw (e : Thrown)
  | SetNodeOutput (key : string) (val : JsValue) (k : Block)
  | GetNodeOutput (nodeId : string) (key : option string) (k : JsValue -> Block)
  | Mutate (change : gmap string (gmap string JsValue) -> gmap string (gmap string JsValue))
           (k : Block)
  | Log (msg : string) (k : option Thrown -> Block)
  | ReadAborted (k : bool -> Block)
  | Await (ms : Z) (stopped : bool) (k : Block).

Record BlockConfig : Type := {
  run : option (RunContext -> Block)
}.

(** ** Observers *)

(** A callback that the engine may have been given: absent, or a function
    of which the embedding keeps the exception it throws, if any. *)
Definition Observer (A : Type) : Type := option (A -> option Thrown).

(** The arguments of the constructor of [ExecutionEngine]. *)
Record Observers : Type := {
  onLog : Observer ExecutionLog;
  onNodeUpdate : Observer (string * NodeExecution)
}.

Definition noObservers : Observers := {| onLog := None; onNodeUpdate := None |}.

(** [callback?.(a)]: the exception with which the call ends, if any. *)
Definition notify {A : Type} (callback : Observer A) (a : A) : option Thrown :=
  match callback with
  | Some f => f a
  | None => None
  end.

(** ** The state of one run *)

Inductive Event : Type :=
  | EvStart (id : string)
  | EvStop
  | EvSuccess (id : string) (outs : gmap string JsValue)
  | EvError (id : string).

Record Run : Type := {
  execution : WorkflowExecution;
  nodeOutputs : gmap string (gmap string JsValue);
  aborted : bool;
  now : Z;
  trace : list Event
}.

Definition withExecution (f : WorkflowExecution -> WorkflowExecution) (r : Run) : Run :=
  {| execution := f (execution r); nodeOutputs := nodeOutputs r;
     aborted := aborted r; now := now r; trace := trace r |}.

Definition withNodeOutputs (m : gmap string (gmap string JsValue)) (r : Run) : Run :=
  {| execution := execution r; nodeOutputs := m;
     aborted := aborted r; now := now r; trace := trace r |}.

Definition emit (ev : Event) (r : Run) : Run :=
  {| execution := execution r; nodeOutputs := nodeOutputs r;
     aborted := aborted r; now := now r; trace := trace r ++ [ev] |}.

Definition elapse (ms : Z) (r : Run) : Run :=
  {| execution := execution r; nodeOutputs := nodeOutputs r;
     aborted := aborted r; now := now r + ms; trace := trace r |}.

Definition setStatus (s : ExecutionStatus) (e : WorkflowExecution) : WorkflowExecution :=
  {| workflowId := workflowId e; status := s; startTime := startTime e;
     endTime := endTime e; duration := duration e; logs := logs e;
     nodeExecutions := nodeExecutions e |}.

Definition pushLog (l : ExecutionLog) (e : WorkflowExecution) : WorkflowExecution :=
  {| workflowId := workflowId e; status := status e; startTime := startTime e;
     endTime := endTime e; duration := duration e; logs := logs e ++ [l];
     nodeExecutions := nodeExecutions e |}.

(** [execution.nodeExecutions[id] = ne], for an id that is [plainKey]. *)
Definition setNodeExecution (id : string) (ne : NodeExecution) (e : WorkflowExecution)
  : WorkflowExecution :=
  {| workflowId := workflowId e; status := status e; startTime := startTime e;
     endTime := endTime e; duration := duration e; logs := logs e;
     nodeExecutions := <[id := ne]> (nodeExecutions e) |}.

Definition finish (t : Z) (e : WorkflowExecution) : WorkflowExecution :=
  {| workflowId := workflowId e; status := status e; startTime := startTime e;
     endTime := Some t; duration := Some (t - startTime e); logs := logs e;
     nodeExecutions := nodeExecutions e |}.

(** [execution.logs.push(log)] *)
Definition logged (r : Run) (lvl : LogLevel) (msg : string) (nid : option string) : Run :=
  withExecution (pushLog {| log_nodeId := nid; message := msg; level := lvl |}) r.

(** [ExecutionEngine.log]: the entry is pushed, then [onLog] is called
    with it; the exception of the observer is the exception of [log]. *)
Definition log (obs : Observers) (r : Run) (lvl : LogLevel) (msg : string)
    (nid : option string) : Run * option Thrown :=
  (logged r lvl msg nid,
   notify (onLog obs) {| log_nodeId := nid; message := msg; level := lvl |}).

(** [ExecutionEngine.stop]: [this.abortController.abort()] *)
Definition stop (r : Run) : Run :=
  {| execution := execution r; nodeOutputs := nodeOutputs r;
     aborted := true; now := now r; trace := trace r ++ [EvStop] |}.

(** The node's own slot, [nodeOutputs[node.id] || {}]. *)
Definition slot (m : gmap string (gmap string JsValue)) (id : string) : gmap string JsValue :=
  default ∅ (m !! id).

(** [context.getNodeOutput], for ids and keys that are [plainKey]: the
    block goes on with the value as it is at the time of the call (the
    object itself stays in its hands, see [Mutate]). *)
Definition getNodeOutput (m : gmap string (gmap string JsValue))
    (nid : string) (key : option string) : JsValue :=
  if decide (nid = "*") then JObj (JObj <$> m)
  else
    let outs := m !! nid in
    match key with
    | Some k =>
        if decide (k = "") then from_option JObj JUndefined outs
        else match outs with
             | Some o => default JUndefined (o !! k)
             | None => JUndefined
             end
    | None => from_option JObj JUndefined outs
    end.

(** [context.setNodeOutput] of the node [id], for an id that is
    [plainKey] and a key other than [__proto__]. *)
Definition setNodeOutput (id key : string) (val : JsValue)
    (m : gmap string (gmap string JsValue)) : gmap string (gmap string JsValue) :=
  <[id := <[key := val]> (slot m id)]> m.

(** Running a block of node [id] against the engine state; [ctx.log] is
    [this.log(execution, 'info', String(message), node.id)]. *)
Fixpoint runBlock (obs : Observers) (b : Block) (id : string) (r : Run)
  : Run * Completion JsValue :=
  match b with
  | Return result => (r, Normal result)
  | Throw e => (r, Abrupt e)
  | SetNodeOutput key val k =>
      runBlock obs k id (withNodeOutputs (setNodeOutput id key val (nodeOutputs r)) r)
  | GetNodeOutput nid key k =>
      runBlock obs (k (getNodeOutput (nodeOutputs r) nid key)) id r
  | Mutate change k =>
      runBlock obs k id (withNodeOutputs (change (nodeOutputs r)) r)
  | Log msg k =>
      let (r1, exc) := log obs r LevelInfo msg (Some id) in
      runBlock obs (k exc) id r1
  | ReadAborted k => runBlock obs (k (aborted r)) id r
  | Await ms stopped k =>
      let r1 := elapse ms r in
      runBlock obs k id (if stopped then stop r1 else r1)
  end.

(** The calls to [setNodeOutput] a block makes, oldest first. *)
Fixpoint outputWrites (obs : Observers) (b : Block) (id : string) (r : Run)
  : list (string * JsValue) :=
  match b with
  | Return _ | Throw _ => []
  | SetNodeOutput key val k =>
      (key, val) ::
      outputWrites obs k id (withNodeOutputs (setNodeOutput id key val (nodeOutputs r)) r)
  | GetNodeOutput nid key k =>
      outputWrites obs (k (getNodeOutput (nodeOutputs r) nid key)) id r
  | Mutate change k =>
      outputWrites obs k id (withNodeOutputs (change (nodeOutputs r)) r)
  | Log msg k =>
      let (r1, exc) := log obs r LevelInfo msg (Some id) in
      outputWrites obs (k exc) id r1
  | ReadAborted k => outputWrites obs (k (aborted r)) id r
  | Await ms stopped k =>
      let r1 := elapse ms r in
      outputWrites obs k id (if stopped then stop r1 else r1)
  end.

Definition applyWrites (ws : list (string * JsValue)) (m : gmap string JsValue)
  : gmap string JsValue :=
  foldl (fun acc kv => <[kv.1 := kv.2]> acc) m ws.

Definition dquote : string :=
  String (Ascii.Ascii false true false false false true false false) EmptyString.

Definition isStarter (n : WorkflowNode) : bool := String.eqb (node_type n) "starter".

(** ** The engine *)

Section Engine.

(** The observers given to the constructor, and the block registry behind
    [getBlockConfig] (src/lib/blocks/registry). *)
Variable obs : Observers.
Variable getBlockConfig : string -> option BlockConfig.

Definition findNode (w : Workflow) (id : string) : option WorkflowNode :=
  List.find (fun n => bool_decide (node_id n = id)) (nodes w).

(** [ExecutionEngine.validateWorkflow] *)
Definition validateWorkflow (w : Workflow) : Completion unit :=
  match nodes w with
  | [] => Abrupt (ErrorObj "Workflow has no nodes")
  | _ :: _ =>
      match findNode w (starterId w) with
      | None => Abrupt (ErrorObj "Start node not found")
      | Some _ => Normal tt
      end
  end.

(** [ExecutionEngine.getConnectedNodes] *)
Definition getConnectedNodes (w : Workflow) (fromNodeId : string) : list WorkflowNode :=
  let connectedNodeIds :=
    target <$> filter (fun e => source e = fromNodeId) (edges w) in
  filter (fun n => node_id n ∈ connectedNodeIds) (nodes w).

Definition runningRecord (node : WorkflowNode) (t : Z) : NodeExecution :=
  {| nodeId := node_id node; ne_status := Running; ne_startTime := Some t;
     ne_endTime := None; ne_duration := None; outputs := None; error := None |}.

Definition successRecord (node : WorkflowNode) (t0 t1 : Z) (outs : gmap string JsValue)
  : NodeExecution :=
  {| nodeId := node_id node; ne_status := Success; ne_startTime := Some t0;
     ne_endTime := Some t1; ne_duration := Some (t1 - t0); outputs := Some outs;
     error := None |}.

(** The record [ne] of a node begun at [t0], as the [catch] block of
    [executeNode] leaves it at [t1]. *)
Definition failedRecord (ne : NodeExecution) (t0 t1 : Z) (msg : string) : NodeExecution :=
  {| nodeId := nodeId ne; ne_status := Error; ne_startTime := ne_startTime ne;
     ne_endTime := Some t1; ne_duration := Some (t1 - t0); outputs := outputs ne;
     error := Some msg |}.

(** The [RunContext] handed to the block of [node]. *)
Definition contextOf (w : Workflow) (node : WorkflowNode) (env : gmap string string)
  : RunContext :=
  {| ctx_workflowId := wf_id w; ctx_nodeId := node_id node;
     ctx_inputs := node_data node; ctx_env := env |}.

(** [blockConfig.run(context)], if the type of [node] has a block that
    can run. *)
Definition blockOf (w : Workflow) (node : WorkflowNode) (env : gmap string string)
  : option Block :=
  (fun f => f (contextOf w node env)) <$> (getBlockConfig (node_type node) ≫= run).

(** The node is recorded as [running]. *)
Definition enterNode (node : WorkflowNode) (r : Run) : Run :=
  emit (EvStart (node_id node))
    (withExecution (setNodeExecution (node_id node) (runningRecord node (now r))) r).

(** The log line that opens the execution of a node that is no starter. *)
Definition announce (node : WorkflowNode) (r : Run) : Run * option Thrown :=
  if isStarter node then (r, None)
  else log obs r LevelInfo ("⚡ " +:+ node_type node +:+ ": " +:+ node_id node)
           (Some (node_id node)).

(** The [try] block of [executeNode] up to the settling of the block. *)
Definition invokeBlock (w : Workflow) (node : WorkflowNode) (env : gmap string string)
    (r : Run) : Run * Completion JsValue :=
  match announce node r with
  | (r1, Some e) => (r1, Abrupt e)
  | (r1, None) =>
      match blockOf w node env with
      | None =>
          (r1, Abrupt (ErrorObj ("Block type " +:+ node_type node +:+
                                 " not found or not executable")))
      | Some b => runBlock obs b (node_id node) r1
      end
  end.

(** The log line that closes the execution of a node that is no starter. *)
Definition conclude (node : WorkflowNode) (r : Run) : Run * option Thrown :=
  if isStarter node then (r, None)
  else log obs r LevelInfo ("✅ " +:+ node_type node +:+ " completed")
           (Some (node_id node)).

(** The [catch] block of [executeNode], entered with [e] when the record
    of the node is [ne]; an exception of its call of [log] takes the place
    of [e]. *)
Definition failNode (node : WorkflowNode) (ne : NodeExecution) (t0 : Z) (r : Run)
    (e : Thrown) : Run * option Thrown :=
  let id := node_id node in
  let msg := errorMessage e in
  let r1 := emit (EvError id)
              (withExecution (setNodeExecution id (failedRecord ne t0 (now r) msg)) r) in
  let (r2, exc) := log obs r1 LevelError ("🚨 Node failed: " +:+ msg) (Some id) in
  (r2, Some (default e exc)).

(** [ExecutionEngine.executeNode]; [Some e] is the exception it ends
    with.  The first call of [onNodeUpdate] comes before the [try]
    block, the second after it. *)
Definition executeNode (w : Workflow) (node : WorkflowNode) (env : gmap string string)
    (r : Run) : Run * option Thrown :=
  let id := node_id node in
  let t0 := now r in
  let r0 := enterNode node r in
  match notify (onNodeUpdate obs) (id, runningRecord node t0) with
  | Some e => (r0, Some e)
  | None =>
      match invokeBlock w node env r0 with
      | (r1, Normal result) =>
          let returnOutputs :=
            if isObjectLike result then asRecord result else {[ "value" := result ]} in
          let outs := returnOutputs ∪ slot (nodeOutputs r1) id in
          let ne := successRecord node t0 (now r1) outs in
          let r2 := emit (EvSuccess id outs)
                      (withExecution (setNodeExecution id ne) r1) in
          let r3 :=
            if isObjectLike result
            then withNodeOutputs
                   (<[id := asRecord result ∪ slot (nodeOutputs r2) id]> (nodeOutputs r2)) r2
            else r2 in
          match conclude node r3 with
          | (r4, Some e) => failNode node ne t0 r4 e
          | (r4, None) => (r4, notify (onNodeUpdate obs) (id, ne))
          end
      | (r1, Abrupt e) => failNode node (runningRecord node t0) t0 r1 e
      end
  end.

(** The variables of the [while] loop of [executeWorkflow]. *)
Record LoopState : Type := {
  visited : gset string;
  queue : list string;
  run_state : Run
}.

Inductive Step : Type :=
  | Continue (s : LoopState)
  | Done (r : Run)
  | Raise (r : Run) (e : Thrown).

(** One evaluation of the loop condition and, if it holds, of the body;
    an exception of the call of [log] in the [catch] block takes the
    place of the one that was caught. *)
Definition iteration (w : Workflow) (env : gmap string string) (s : LoopState) : Step :=
  let r := run_state s in
  match queue s with
  | [] => Done r
  | nid :: rest =>
      if aborted r then Done (withExecution (setStatus Cancelled) r)
      else if decide (nid ∈ visited s) then
        Continue {| visited := visited s; queue := rest; run_state := r |}
      else
        let visited' := {[ nid ]} ∪ visited s in
        match findNode w nid with
        | None => Continue {| visited := visited'; queue := rest; run_state := r |}
        | Some node =>
            match executeNode w node env r with
            | (r1, Some e) =>
                let r2 := withExecution (setStatus Error) r1 in
                let (r3, exc) :=
                  log obs r2 LevelError
                      ("❌ Node " +:+ dquote +:+ node_id node +:+ dquote +:+
                       " failed: " +:+ errorMessage e) None in
                Raise r3 (default e exc)
            | (r1, None) =>
                let nextNodes := getConnectedNodes w nid in
                let pushed :=
                  node_id <$> filter (fun n => node_id n ∉ visited') nextNodes in
                Continue {| visited := visited'; queue := rest ++ pushed;
                            run_state := r1 |}
            end
        end
  end.

(** The loop, cut off after [fuel] iterations ([None]). *)
Fixpoint loop (fuel : nat) (w : Workflow) (env : gmap string string) (s : LoopState)
  : option (Run * option Thrown) :=
  match fuel with
  | O => None
  | S fuel' =>
      match iteration w env s with
      | Continue s' => loop fuel' w env s'
      | Done r => Some (r, None)
      | Raise r e => Some (r, Some e)
      end
  end.

Definition loopFuel (w : Workflow) : nat :=
  2 + S (length (nodes w)) * length (nodes w).

(** The outer [try] block of [executeWorkflow]. *)
Definition tryBody (w : Workflow) (env : gmap string string) (r : Run)
  : option (Run * option Thrown) :=
  match validateWorkflow w with
  | Abrupt e => Some (r, Some e)
  | Normal _ =>
      let r0 := withNodeOutputs ∅ r in
      match findNode w (starterId w) with
      | None => Some (r0, Some (ErrorObj "Start node not found"))
      | Some startNode =>
          match loop (loopFuel w) w env
                  {| visited := ∅; queue := [node_id startNode]; run_state := r0 |} with
          | None => None
          | Some (r1, Some e) => Some (r1, Some e)
          | Some (r1, None) =>
              match status (execution r1) with
              | Cancelled => Some (r1, None)
              | _ =>
                  Some (log obs (withExecution (setStatus Success) r1) LevelInfo
                          "✅ Workflow completed" None)
              end
          end
      end
  end.

Definition initialRun (w : Workflow) (t0 : Z) : Run :=
  {| execution :=
       {| workflowId := wf_id w; status := Running; startTime := t0;
          endTime := None; duration := None; logs := []; nodeExecutions := ∅ |};
     nodeOutputs := ∅; aborted := false; now := t0; trace := [] |}.

(** [ExecutionEngine.executeWorkflow], started at time [t0]: the state in
    which it ends and the exception that escapes it, if any; [None] if
    the loop does not end within its fuel.  The first call of [log] is
    outside the [try] block, and nothing catches what the [catch] block
    throws: there the lines that set [endTime] and [duration] are not
    reached. *)
Definition runEngine (w : Workflow) (env : gmap string string) (t0 : Z)
  : option (Run * option Thrown) :=
  let (r, exc0) :=
    log obs (initialRun w t0) LevelInfo ("🚀 Starting workflow: " +:+ wf_name w) None in
  match exc0 with
  | Some e => Some (r, Some e)
  | None =>
      match tryBody w env r with
      | None => None
      | Some (r1, exc) =>
          let (r2, exc') :=
            match exc with
            | Some e =>
                log obs (withExecution (setStatus Error) r1) LevelError
                    ("💥 Workflow failed: " +:+ errorMessage e) None
            | None => (r1, None)
            end in
          match exc' with
          | Some e' => Some (r2, Some e')
          | None => Some (withExecution (finish (now r2)) r2, None)
          end
      end
  end.

(** The state in which [executeWorkflow] ends. *)
Definition runWorkflow (w : Workflow) (env : gmap string string) (t0 : Z) : option Run :=
  fst <$> runEngine w env t0.

(** [ExecutionEngine.executeWorkflow] as the promise it returns. *)
Definition executeWorkflow (w : Workflow) (env : gmap string string) (t0 : Z)
  : Promise WorkflowExecution :=
  match runEngine w env t0 with
  | Some (r, None) => Resolved (execution r)
  | Some (_, Some e) => Rejected e
  | None => Pending
  end.

(** [startWorkflow]: the promise of a fresh engine; the [engine.stop()]
    calls of its holder are the [stopped] awaits of the blocks. *)
Definition startWorkflow (w : Workflow) (env : gmap string string) (t0 : Z)
  : Promise WorkflowExecution :=
  executeWorkflow w env t0.

End Engine.

(** ** The network capability

    Times are milliseconds counted from the start of the call. *)

(** An [AbortSignal]: the time at which it fires ([0] or less if it has
    fired before the call), [None] if it never does. *)
Definition AbortSignal : Type := option Z.

Record Response : Type := {
  resp_status : Z;
  resp_body : string
}.

(** What the network does with a request that nobody aborts. *)
Inductive NetworkResult : Type :=
  | NetResponse (resp : Response)
  | NetFailure.

(** [None]: the server never answers. *)
Definition Network : Type := option (Z * NetworkResult).

(** The errors a call can fail with: the [AbortError] of an aborted
    signal, the [TypeError] of a network failure. *)
Inductive FetchError : Type :=
  | AbortError
  | NetworkError.

Inductive FetchOutcome : Type :=
  | Fulfilled (time : Z) (resp : Response)
  | RejectedWith (time : Z) (err : FetchError)
  | Unsettled.

Record RequestInit : Type := {
  init_signal : option AbortSignal
}.

Definition settle (time : Z) (res : NetworkResult) : FetchOutcome :=
  match res with
  | NetResponse resp => Fulfilled time resp
  | NetFailure => RejectedWith time NetworkError
  end.

(** The platform's [fetch(input, {signal})]: the answer of the network
    if it comes before the signal fires, an [AbortError] otherwise. *)
Definition fetch (signal : AbortSignal) (net : Network) : FetchOutcome :=
  match signal, net with
  | Some ta, Some (tn, res) =>
      if tn <? ta then settle tn res else RejectedWith (Z.max 0 ta) AbortError
  | Some ta, None => RejectedWith (Z.max 0 ta) AbortError
  | None, Some (tn, res) => settle tn res
  | None, None => Unsettled
  end.

(** [setTimeout(() => controller.abort(), 30000)] *)
Definition FETCH_TIMEOUT_MS : Z := 30000.

(** The signal of the [AbortController] of one call: aborted by the timer
    and, if the engine signal is given, when that signal fires. *)
Definition controllerSignal (engineSignal : option AbortSignal) : AbortSignal :=
  match engineSignal with
  | Some (Some te) => Some (Z.min FETCH_TIMEOUT_MS (Z.max 0 te))
  | Some None | None => Some FETCH_TIMEOUT_MS
  end.

(** [ExecutionEngine.createFetchWithTimeout(engineSignal)(input, init)];
    the signal handed to [fetch] is [init?.signal ?? controller.signal]. *)
Definition createFetchWithTimeout (engineSignal : option AbortSignal)
    (init : option RequestInit) (net : Network) : FetchOutcome :=
  let signal :=
    match init ≫= init_signal with
    | Some s => s
    | None => controllerSignal engineSignal
    end in
  fetch signal net.

(** ** Vocabulary of the statements *)

(** No observer throws. *)
Definition quiet (obs : Observers) : Prop :=
  (∀ l, notify (onLog obs) l = None) ∧ (∀ u, notify (onNodeUpdate obs) u = None).

(** The block changes the registry by calling [setNodeOutput] only. *)
Inductive accessorOnly : Block → Prop :=
  | accessorOnly_return result : accessorOnly (Return result)
  | accessorOnly_throw e : accessorOnly (Throw e)
  | accessorOnly_set key val k :
      accessorOnly k → accessorOnly (SetNodeOutput key val k)
  | accessorOnly_get nid key k :
      (∀ v, accessorOnly (k v)) → accessorOnly (GetNodeOutput nid key k)
  | accessorOnly_log msg k :
      (∀ exc, accessorOnly (k exc)) → accessorOnly (Log msg k)
  | accessorOnly_aborted k :
      (∀ a, accessorOnly (k a)) → accessorOnly (ReadAborted k)
  | accessorOnly_await ms stopped k :
      accessorOnly k → accessorOnly (Await ms stopped k).

(** The names of the members of [Object.prototype], and the names that
    are none of them. *)
Definition objectPrototypeKeys : list string :=
  ["constructor"; "hasOwnProperty"; "isPrototypeOf"; "propertyIsEnumerable";
   "toLocaleString"; "toString"; "valueOf"; "__proto__";
   "__defineGetter__"; "__defineSetter__"; "__lookupGetter__"; "__lookupSetter__"].

Definition plainKey (k : string) : Prop := k ∉ objectPrototypeKeys.

(** The state of the loop when it is entered, and after [n] turns. *)
Definition loopStart (w : Workflow) (t0 : Z) : LoopState :=
  {| visited := ∅; queue := [starterId w];
     run_state :=
       withNodeOutputs ∅
         (logged (initialRun w t0) LevelInfo ("🚀 Starting workflow: " +:+ wf_name w)
                 None) |}.

Fixpoint loopState (obs : Observers) (reg : string → option BlockConfig) (w : Workflow)
    (env : gmap string string) (n : nat) (s : LoopState) : option LoopState :=
  match n with
  | O => Some s
  | S n' =>
      match iteration obs reg w env s with
      | Continue s' => loopState obs reg w env n' s'
      | _ => None
      end
  end.

Definition appendLogs (extra : list ExecutionLog) (e : WorkflowExecution)
  : WorkflowExecution :=
  {| workflowId := workflowId e; status := status e; startTime := startTime e;
     endTime := endTime e; duration := duration e; logs := logs e ++ extra;
     nodeExecutions := nodeExecutions e |}.

(** The abort flag after the [stop] calls recorded in [stops]. *)
Definition abortedAfter (stops : list Event) (a : bool) : bool :=
  match stops with [] => a | _ :: _ => true end.

(** What running a block of node [id] may change in the engine state. *)
Record BlockRan (id : string) (r r' : Run) : Prop := {
  br_execution : ∃ extra, execution r' = appendLogs extra (execution r);
  br_trace : ∃ stops, trace r' = trace r ++ stops ∧ Forall (eq EvStop) stops ∧
                      aborted r' = abortedAfter stops (aborted r)
}.

(** [hasEdge w p n]: the workflow has an edge from [p] to [n]. *)
Definition hasEdge (w : Workflow) (p n : string) : Prop :=
  ∃ e, e ∈ edges w ∧ source e = p ∧ target e = n.

Definition succeeded (t : list Event) (id : string) : Prop :=
  ∃ outs, EvSuccess id outs ∈ t.

(** The ids whose execution began, in the order it began. *)
Definition startedIds (t : list Event) : list string :=
  omap (fun ev => match ev with EvStart id => Some id | _ => None end) t.

(** How the execution of node [id] ended: its closing event [fin] and the
    record [ne] it leaves in [nodeExecutions]. *)
Definition nodeOutcome (id : string) (r' : Run) (res : option Thrown)
    (fin : Event) (ne : NodeExecution) : Prop :=
  match res with
  | None =>
      ne_status ne = Success ∧
      ∃ outs, outputs ne = Some outs ∧ fin = EvSuccess id outs
  | Some _ =>
      ne_status ne = Error ∧ fin = EvError id ∧
      ∃ l, l ∈ logs (execution r') ∧ log_nodeId l = Some id ∧ level l = LevelError
  end.

(** What one call of [executeNode] on node [id] changes. *)
Record NodeRan (id : string) (r r' : Run) (res : option Thrown) : Prop := {
  nr_status : status (execution r') = status (execution r);
  nr_logs : ∃ extra, logs (execution r') = logs (execution r) ++ extra;
  nr_events : ∃ stops fin ne,
    trace r' = trace r ++ EvStart id :: stops ++ [fin] ∧
    Forall (eq EvStop) stops ∧
    aborted r' = abortedAfter stops (aborted r) ∧
    nodeExecutions (execution r') = <[id := ne]> (nodeExecutions (execution r)) ∧
    nodeOutcome id r' res fin ne
}.

(** The traces the loop can produce: one segment per executed node, begun
    while no node has failed and no stop was requested, for a node that
    has not begun before and is the starter or the target of an edge from
    a succeeded node. *)
Inductive TraceOK (w : Workflow) : list Event → Prop :=
  | TraceOK_nil : TraceOK w []
  | TraceOK_node t id stops fin :
      TraceOK w t →
      (∀ a, EvError a ∉ t) →
      EvStop ∉ t →
      EvStart id ∉ t →
      (id = starterId w ∨ ∃ p, hasEdge w p id ∧ succeeded t p) →
      Forall (eq EvStop) stops →
      (fin = EvError id ∨ ∃ outs, fin = EvSuccess id outs) →
      TraceOK w (t ++ EvStart id :: stops ++ [fin]).

(** [pathTo w p n]: [p] lists the nodes of a path of edges from the
    starter to [n], both included. *)
Inductive pathTo (w : Workflow) : list string → string → Prop :=
  | pathTo_starter : pathTo w [starterId w] (starterId w)
  | pathTo_edge p m n : pathTo w p m → hasEdge w m n → pathTo w (p ++ [n]) n.

(** [n] can be reached from the starter, but only through [a]. *)
Definition onlyThrough (w : Workflow) (a n : string) : Prop :=
  n ≠ a ∧ ∀ p, pathTo w p n → a ∈ p.

(** Every node but the starter begins after a predecessor has succeeded. *)
Definition startsAfterSome (w : Workflow) (t : list Event) : Prop :=
  ∀ t1 t2 n, t = t1 ++ EvStart n :: t2 →
    n = starterId w ∨ ∃ p, hasEdge w p n ∧ succeeded t1 p.

(** Every node begins after all its predecessors have succeeded. *)
Definition startsAfterAll (w : Workflow) (t : list Event) : Prop :=
  ∀ t1 t2 n p, t = t1 ++ EvStart n :: t2 → hasEdge w p n → succeeded t1 p.


(** Every successor of a succeeded node that is a node of the workflow
    has begun. *)
Definition complete (w : Workflow) (t : list Event) : Prop :=
  ∀ x n, succeeded t x → n ∈ nodes w → hasEdge w x (node_id n) →
    EvStart (node_id n) ∈ t.

(** What holds of the engine state whenever the loop is at rest. *)
Record RunOK (w : Workflow) (r : Run) : Prop := {
  ok_trace : TraceOK w (trace r);
  ok_success : ∀ x o, EvSuccess x o ∈ trace r →
    ∃ ne, nodeExecutions (execution r) !! x = Some ne ∧
          ne_status ne = Success ∧ outputs ne = Some o;
  ok_error_log : ∀ a, EvError a ∈ trace r →
    ∃ l, l ∈ logs (execution r) ∧ log_nodeId l = Some a ∧ level l = LevelError;
  ok_error_record : ∀ id ne,
    nodeExecutions (execution r) !! id = Some ne → ne_status ne = Error →
    EvError id ∈ trace r;
  ok_aborted : aborted r = true ↔ EvStop ∈ trace r
}.

(** The invariant of the [while] loop. *)
Record LoopInv (w : Workflow) (s : LoopState) : Prop := {
  li_ok : RunOK w (run_state s);
  li_running : status (execution (run_state s)) = Running;
  li_no_error : ∀ a, EvError a ∉ trace (run_state s);
  li_visited : ∀ x, EvStart x ∈ trace (run_state s) → x ∈ visited s;
  li_started : ∀ n, n ∈ nodes w → node_id n ∈ visited s →
    EvStart (node_id n) ∈ trace (run_state s);
  li_queue : ∀ q, q ∈ queue s →
    q = starterId w ∨ ∃ p, hasEdge w p q ∧ succeeded (trace (run_state s)) p;
  li_complete : ∀ x n, succeeded (trace (run_state s)) x → n ∈ nodes w →
    hasEdge w x (node_id n) → node_id n ∈ visited s ∨ node_id n ∈ queue s
}.

(** What holds when the loop is left, normally or by an exception. *)
Definition LoopPost (w : Workflow) (res : Run * option Thrown) : Prop :=
  RunOK w res.1 ∧
  match res.2 with
  | None =>
      (∀ a, EvError a ∉ trace res.1) ∧
      ((status (execution res.1) = Running ∧ complete w (trace res.1)) ∨
       (status (execution res.1) = Cancelled ∧ aborted res.1 = true))
  | Some _ =>
      status (execution res.1) = Error ∧ ∃ a, EvError a ∈ trace res.1
  end.

Definition nodeIds (w : Workflow) : gset string :=
  list_to_set (node_id <$> nodes w).

(** The variant of the loop. *)
Definition measure (w : Workflow) (s : LoopState) : nat :=
  length (queue s) + S (length (nodes w)) * size (nodeIds w ∖ visited s).

(** What holds of the state in which [executeWorkflow] returns. *)
Record FinalOK (w : Workflow) (r : Run) : Prop := {
  fin_ok : RunOK w r;
  fin_terminal :
    status (execution r) = Success ∨ status (execution r) = Error ∨
    status (execution r) = Cancelled;
  fin_end : endTime (execution r) = Some (now r);
  fin_duration : duration (execution r) = Some (now r - startTime (execution r));
  fin_success : status (execution r) = Success →
    (∀ a, EvError a ∉ trace r) ∧ complete w (trace r);
  fin_cancelled : status (execution r) = Cancelled →
    (∀ a, EvError a ∉ trace r) ∧ aborted r = true;
  fin_error : status (execution r) = Error →
    trace r = [] ∨ ∃ a, EvError a ∈ trace r;
  fin_node_error : ∀ a, EvError a ∈ trace r → status (execution r) = Error
}.

(** ** Sample blocks and workflows *)

Definition sampleBlocks : gmap string BlockConfig :=
  list_to_map [
    ("starter", {| run := Some (fun ctx =>
        SetNodeOutput "trigger" (JBool true)
          (Return (JObj {[ "workflowId" := JStr (ctx_workflowId ctx) ]}))) |});
    ("task", {| run := Some (fun _ => Await 5 false (Return (JObj ∅))) |});
    ("fail", {| run := Some (fun _ => Throw (ErrorObj "boom")) |});
    ("text", {| run := Some (fun _ => Return (JStr "hi")) |});
    ("read", {| run := Some (fun _ =>
        GetNodeOutput "P" (Some "value") (fun v => Return (JObj {[ "seen" := v ]}))) |});
    ("merge", {| run := Some (fun _ =>
        SetNodeOutput "a" (JNum 1)
          (Return (JObj (<[ "a" := JNum 2 ]> {[ "b" := JNum 3 ]})))) |});
    ("stopped", {| run := Some (fun _ => Await 10 true (Return (JObj ∅))) |});
    ("aborted", {| run := Some (fun _ =>
        Await 10 true (Throw (ErrorObj "The operation was aborted"))) |});
    ("abstract", {| run := None |})
  ].

Definition sampleRegistry (type : string) : option BlockConfig := sampleBlocks !! type.

Definition mkNode (id type : string) : WorkflowNode :=
  {| node_id := id; node_type := type; node_data := ∅ |}.

Definition mkEdge (s t : string) : WorkflowEdge :=
  {| edge_id := s +:+ "-" +:+ t; source := s; target := t |}.

Definition mkWorkflow (ns : list WorkflowNode) (es : list WorkflowEdge) (start : string)
  : Workflow :=
  {| wf_id := "wf"; wf_name := "sample"; nodes := ns; edges := es; starterId := start |}.

(** S→A→C and S→B→D→C: acyclic, C joins A and D. *)
Definition joinWorkflow : Workflow :=
  mkWorkflow
    [mkNode "S" "starter"; mkNode "A" "task"; mkNode "B" "task";
     mkNode "C" "task"; mkNode "D" "task"]
    [mkEdge "S" "A"; mkEdge "S" "B"; mkEdge "A" "C"; mkEdge "B" "D"; mkEdge "D" "C"]
    "S".

(** A rank that every edge of [joinWorkflow] increases. *)
Definition joinRank (id : string) : nat :=
  if String.eqb id "S" then 0
  else if String.eqb id "A" then 1
  else if String.eqb id "B" then 1
  else if String.eqb id "D" then 2
  else 3.

(** A→B→A, started at A. *)
Definition cyclicWorkflow : Workflow :=
  mkWorkflow [mkNode "A" "task"; mkNode "B" "task"]
             [mkEdge "A" "B"; mkEdge "B" "A"] "A".

(** An edge to a node that does not exist. *)
Definition danglingWorkflow : Workflow :=
  mkWorkflow [mkNode "S" "starter"] [mkEdge "S" "ghost"] "S".

(** No node has the starter id. *)
Definition noStarterWorkflow : Workflow :=
  mkWorkflow [mkNode "A" "task"] [] "S".

Definition mergeWorkflow : Workflow :=
  mkWorkflow [mkNode "M" "merge"] [] "M".

(** S→A→X where A fails. *)
Definition failWorkflow : Workflow :=
  mkWorkflow [mkNode "S" "starter"; mkNode "A" "fail"; mkNode "X" "task"]
             [mkEdge "S" "A"; mkEdge "A" "X"] "S".





(** ** Blocks of the registry (src/lib/blocks)

    Strings are sequences of bytes; a character outside ASCII is its
    UTF-8 encoding. *)

(** [starterBlock.run] (starter.ts); [startedAt] is the ISO form of the
    time of the call, [new Date().toISOString()]. *)
Definition starterResult (startedAt : string) (ctx : RunContext) : gmap string JsValue :=
  <[ "startedAt" := JStr startedAt ]> {[ "workflowId" := JStr (ctx_workflowId ctx) ]}.

Definition starterBlock (startedAt : string) : BlockConfig :=
  {| run := Some (fun ctx =>
       SetNodeOutput "trigger" (JBool true)
         (SetNodeOutput "payload" (JObj (starterResult startedAt ctx))
            (Return (JObj (starterResult startedAt ctx))))) |}.

(** The white space and line terminators that [String.prototype.trim]
    removes: TAB, LF, VT, FF, CR and SPACE, *)
Definition isWs1 (c : Ascii.ascii) : bool :=
  let n := Ascii.N_of_ascii c in
  ((9 <=? n) && (n <=? 13))%N || (n =? 32)%N.

(** U+00A0, encoded C2 A0, *)
Definition isWs2 (c1 c2 : Ascii.ascii) : bool :=
  (Ascii.N_of_ascii c1 =? 194)%N && (Ascii.N_of_ascii c2 =? 160)%N.

(** U+1680 (E1 9A 80), U+2000 to U+200A, U+2028, U+2029 and U+202F
    (E2 80 ..), U+205F (E2 81 9F), U+3000 (E3 80 80), U+FEFF (EF BB BF). *)
Definition isWs3 (c1 c2 c3 : Ascii.ascii) : bool :=
  let a := Ascii.N_of_ascii c1 in
  let b := Ascii.N_of_ascii c2 in
  let c := Ascii.N_of_ascii c3 in
  ((a =? 225) && (b =? 154) && (c =? 128))%N
  || ((a =? 226) && (b =? 128) &&
      (((128 <=? c) && (c <=? 138)) || (c =? 168) || (c =? 169) || (c =? 175)))%N
  || ((a =? 226) && (b =? 129) && (c =? 159))%N
  || ((a =? 227) && (b =? 128) && (c =? 128))%N
  || ((a =? 239) && (b =? 187) && (c =? 191))%N.

(** The string is made of white space only. *)
Fixpoint allWs (s : string) : bool :=
  match s with
  | EmptyString => true
  | String c1 r1 =>
      if isWs1 c1 then allWs r1
      else match r1 with
           | EmptyString => false
           | String c2 r2 =>
               if isWs2 c1 c2 then allWs r2
               else match r2 with
                    | EmptyString => false
                    | String c3 r3 => if isWs3 c1 c2 c3 then allWs r3 else false
                    end
           end
  end.

Fixpoint trimStart (s : string) : string :=
  match s with
  | EmptyString => EmptyString
  | String c1 r1 =>
      if isWs1 c1 then trimStart r1
      else match r1 with
           | EmptyString => s
           | String c2 r2 =>
               if isWs2 c1 c2 then trimStart r2
               else match r2 with
                    | EmptyString => s
                    | String c3 r3 => if isWs3 c1 c2 c3 then trimStart r3 else s
                    end
           end
  end.

Fixpoint trimEnd (s : string) : string :=
  match s with
  | EmptyString => EmptyString
  | String c r => if allWs s then EmptyString else String c (trimEnd r)
  end.

(** [String.prototype.trim] *)
Definition trim (s : string) : string := trimEnd (trimStart s).

(** [evaluateExpression(expression, _context)] (blocks/condition):
    [expression.trim().length > 0]. *)
Definition evaluateExpression (expression : string) : bool :=
  (0 <? String.length (trim expression))%nat.

(** [expression ?? ''] *)
Definition orEmpty (v : JsValue) : JsValue :=
  match v with
  | JUndefined | JNull => JStr ""
  | _ => v
  end.

Section Condition.

(** [Number.prototype.toString]; the [TypeError] of an object that cannot
    be converted to a primitive value; [String(error)] of a thrown value,
    [None] if that throws the [TypeError]. *)
Variable numberToString : Z -> string.
Variable conversionError : Thrown.
Variable thrownToString : Thrown -> option string.

(** [String(value)]; [None] when it throws the [TypeError].  A plain
    object is shown by the [toString] it inherits unless it has a
    property [toString] of its own: that one is no function, and the
    inherited [valueOf] gives no primitive value. *)
Fixpoint jsString (v : JsValue) : option string :=
  match v with
  | JUndefined => Some "undefined"
  | JNull => Some "null"
  | JBool true => Some "true"
  | JBool false => Some "false"
  | JNum z => Some (numberToString z)
  | JStr s => Some s
  | JArr items =>
      String.concat "," <$>
        (fix each (l : list JsValue) : option (list string) :=
           match l with
           | [] => Some []
           | x :: l' =>
               match match x with
                     | JUndefined | JNull => Some ""
                     | _ => jsString x
                     end, each l' with
               | Some shown, Some rest => Some (shown :: rest)
               | _, _ => None
               end
           end) items
  | JObj fields =>
      match fields !! "toString" with
      | Some _ => None
      | None => Some "[object Object]"
      end
  end.

(** The template literal [`${result}`] of a boolean. *)
Definition showBool (b : bool) : string := if b then "true" else "false".

(** The [catch] block of [conditionBlock.run]. *)
Definition conditionFailed (error : Thrown) : Block :=
  match thrownToString error with
  | None => Throw conversionError
  | Some shown =>
      Log ("❌ Condition evaluation failed: " +:+ shown) (fun exc =>
        match exc with
        | Some e => Throw e
        | None =>
            SetNodeOutput "result" (JBool false)
              (Return (JObj {[ "result" := JBool false ]}))
        end)
  end.

(** [conditionBlock.run] (blocks/condition).  The first [String(expression)]
    and the first [ctx.log] are outside the [try] block. *)
Definition conditionBlock : BlockConfig :=
  {| run := Some (fun ctx =>
       let expression := default JUndefined (ctx_inputs ctx !! "expression") in
       match jsString expression with
       | None => Throw conversionError
       | Some shown =>
           Log ("🔀 Evaluating condition: " +:+ shown) (fun exc =>
             match exc with
             | Some e => Throw e
             | None =>
                 match jsString (orEmpty expression) with
                 | None => conditionFailed conversionError
                 | Some text =>
                     let result := evaluateExpression text in
                     SetNodeOutput "result" (JBool result)
                       (Log ("✅ Condition result: " +:+ showBool result) (fun exc' =>
                          match exc' with
                          | Some e' => conditionFailed e'
                          | None => Return (JObj {[ "result" := JBool result ]})
                          end))
                 end
             end)
       end) |}.

End Condition.

(** ** Vocabulary of the further properties *)

(** The first entry of every log. *)
Definition startLog (w : Workflow) : ExecutionLog :=
  {| log_nodeId := None; message := "🚀 Starting workflow: " +:+ wf_name w;
     level := LevelInfo |}.

Definition completedLog : ExecutionLog :=
  {| log_nodeId := None; message := "✅ Workflow completed"; level := LevelInfo |}.

Definition failedLog (msg : string) : ExecutionLog :=
  {| log_nodeId := None; message := "💥 Workflow failed: " +:+ msg;
     level := LevelError |}.

(** [reachNode w n]: the id [n] is the starter, if it is a node, or the id
    of a node with an edge from a reachable id. *)
Inductive reachNode (w : Workflow) : string → Prop :=
  | reach_starter start :
      findNode w (starterId w) = Some start → reachNode w (starterId w)
  | reach_edge m n :
      reachNode w m → n ∈ nodes w → hasEdge w m (node_id n) →
      reachNode w (node_id n).

(** The node that began has ended when [m] begins. *)
Definition endedBefore (t : list Event) : Prop :=
  ∀ t1 t2 t3 n m, t = t1 ++ EvStart n :: t2 ++ EvStart m :: t3 →
    ∃ outs, EvSuccess n outs ∈ t2.

(** The record of a node whose execution has ended: it carries the id
    of the node and its times, and either outputs or an error message. *)
Definition recordDone (id : string) (ne : NodeExecution) : Prop :=
  nodeId ne = id ∧
  (∃ t0 t1, ne_startTime ne = Some t0 ∧ ne_endTime ne = Some t1 ∧
            ne_duration ne = Some (t1 - t0)) ∧
  ((ne_status ne = Success ∧ is_Some (outputs ne) ∧ error ne = None) ∨
   (ne_status ne = Error ∧ outputs ne = None ∧ is_Some (error ne))).

(** What holds of the records whenever the loop is at rest. *)
Record RunX (w : Workflow) (r : Run) : Prop := {
  rx_records : ∀ id,
    is_Some (nodeExecutions (execution r) !! id) ↔ EvStart id ∈ trace r;
  rx_shape : ∀ id ne, nodeExecutions (execution r) !! id = Some ne →
    recordDone id ne;
  rx_found : ∀ id, EvStart id ∈ trace r → is_Some (findNode w id);
  rx_first : trace r = [] ∨ ∃ t, trace r = EvStart (starterId w) :: t
}.

(** The log while the loop runs: the opening entry, then entries that
    carry a node id. *)
Definition LogsX (w : Workflow) (r : Run) : Prop :=
  ∃ extra, logs (execution r) = startLog w :: extra ∧
           Forall (λ l, is_Some (log_nodeId l)) extra.

Definition nodeFailedLog (a : string) (e : Thrown) : ExecutionLog :=
  {| log_nodeId := None;
     message := "❌ Node " +:+ dquote +:+ a +:+ dquote +:+ " failed: " +:+ errorMessage e;
     level := LevelError |}.

Record LoopInvX (w : Workflow) (s : LoopState) : Prop := {
  lx_run : RunX w (run_state s);
  lx_logs : LogsX w (run_state s);
  lx_visited : ∀ x, EvStart x ∈ trace (run_state s) → x ∈ visited s;
  lx_queue : trace (run_state s) = [] → ∀ q, q ∈ queue s → q = starterId w;
  lx_starter : EvStart (starterId w) ∈ trace (run_state s) ∨
               (starterId w ∈ queue s ∧ starterId w ∉ visited s)
}.

Definition LoopPostX (w : Workflow) (res : Run * option Thrown) : Prop :=
  RunX w res.1 ∧
  match res.2 with
  | None =>
      LogsX w res.1 ∧
      (status (execution res.1) = Running → EvStart (starterId w) ∈ trace res.1)
  | Some e =>
      ∃ a extra,
        logs (execution res.1) = startLog w :: extra ++ [nodeFailedLog a e] ∧
        Forall (λ l, is_Some (log_nodeId l)) extra
  end.

(** The log of a finished run: the opening entry, entries that carry a
    node id, and a closing that goes with the status. *)
Definition FinalLogs (w : Workflow) (r : Run) : Prop :=
  ∃ extra, Forall (λ l, is_Some (log_nodeId l)) extra ∧
    ((status (execution r) = Success ∧
      logs (execution r) = startLog w :: extra ++ [completedLog]) ∨
     (status (execution r) = Cancelled ∧
      logs (execution r) = startLog w :: extra) ∨
     (status (execution r) = Error ∧
      ∃ a e, logs (execution r) =
               startLog w :: extra ++ [nodeFailedLog a e; failedLog (errorMessage e)]) ∨
     (status (execution r) = Error ∧ trace r = [] ∧
      ∃ msg, logs (execution r) = [startLog w; failedLog msg])).

Record FinalX (w : Workflow) (r : Run) : Prop := {
  fx_run : RunX w r;
  fx_logs : FinalLogs w r;
  fx_starter : status (execution r) = Success → EvStart (starterId w) ∈ trace r
}.

(** ** Further samples *)

Definition sampleTypeError : Thrown :=
  ErrorObj "Cannot convert object to primitive value".

(** A block that writes an output and then throws a value that is no
    [Error]; the starter and the condition block; the block [merge], and
    a block that takes the slot of the node M from [getNodeOutput] and
    sets its key [a]. *)
Definition moreBlocks : gmap string BlockConfig :=
  list_to_map [
    ("partial", {| run := Some (fun _ =>
        SetNodeOutput "seen" (JNum 1) (Throw (NonError (JStr "oops")))) |});
    ("starter", starterBlock "2024-01-01T00:00:00.000Z");
    ("condition", conditionBlock (fun _ => "0") sampleTypeError (fun _ => Some "Error"));
    ("merge", {| run := Some (fun _ =>
        SetNodeOutput "a" (JNum 1)
          (Return (JObj (<[ "a" := JNum 2 ]> {[ "b" := JNum 3 ]})))) |});
    ("meddle", {| run := Some (fun _ =>
        GetNodeOutput "M" None (fun _ =>
          Mutate (fun m => <[ "M" := <[ "a" := JNum 99 ]> (slot m "M") ]> m)
            (Return (JObj ∅)))) |})
  ].

Definition moreRegistry (type : string) : option BlockConfig := moreBlocks !! type.

Definition conditionNode (expression : string) : WorkflowNode :=
  {| node_id := "K"; node_type := "condition";
     node_data := {[ "expression" := JStr expression ]} |}.


(** M→Q: M writes and returns outputs, Q changes the slot of M. *)
Definition mergeThenMeddle : Workflow :=
  mkWorkflow [mkNode "M" "merge"; mkNode "Q" "meddle"] [mkEdge "M" "Q"] "M".

(** A node whose expression cannot be converted to a string. *)
Definition oddConditionNode : WorkflowNode :=
  {| node_id := "K"; node_type := "condition";
     node_data := {[ "expression" := JObj {[ "toString" := JNum 0 ]} ]} |}.

(** Observers: an [onLog] that throws at every entry, one that throws at
    the entries of level [error], and an [onNodeUpdate] that throws. *)
Definition failingLog : Observers :=
  {| onLog := Some (fun _ => Some (ErrorObj "observer failed"));
     onNodeUpdate := None |}.

Definition failingErrorLog : Observers :=
  {| onLog := Some (fun l => match level l with
                             | LevelError => Some (ErrorObj "observer failed")
                             | _ => None
                             end);
     onNodeUpdate := None |}.

Definition failingUpdate : Observers :=
  {| onLog := None;
     onNodeUpdate := Some (fun _ => Some (ErrorObj "observer failed")) |}.

(** Observers that return. *)
Definition silentObservers : Observers :=
  {| onLog := Some (fun _ => None); onNodeUpdate := Some (fun _ => None) |}.

(** S→A, S→B, A→C: every node has at most one edge into it. *)
Definition treeWorkflow : Workflow :=
  mkWorkflow
    [mkNode "S" "starter"; mkNode "A" "task"; mkNode "B" "task"; mkNode "C" "task"]
    [mkEdge "S" "A"; mkEdge "S" "B"; mkEdge "A" "C"] "S".

(** S→A→C and S→B→C: C joins A and B, both one edge from the starter. *)
Definition diamondWorkflow : Workflow :=
  mkWorkflow
    [mkNode "S" "starter"; mkNode "A" "task"; mkNode "B" "task"; mkNode "C" "task"]
    [mkEdge "S" "A"; mkEdge "S" "B"; mkEdge "A" "C"; mkEdge "B" "C"] "S".

(** The number of edges from the starter to a node of [diamondWorkflow]. *)
Definition diamondRank (id : string) : nat :=
  if String.eqb id "S" then 0
  else if String.eqb id "C" then 2
  else 1.

(** ** Vocabulary of the order of the walk *)

(** [reachIn w k n]: a path of [k] edges between nodes of the workflow
    leads from the starter to the node id [n]. *)
Inductive reachIn (w : Workflow) : nat → string → Prop :=
  | reachIn_0 start :
      findNode w (starterId w) = Some start → reachIn w 0 (starterId w)
  | reachIn_S k m n :
      reachIn w k m → n ∈ nodes w → hasEdge w m (node_id n) →
      reachIn w (S k) (node_id n).

(** When a node begins, the nodes that are nearer to the starter than it
    have succeeded. *)
Definition nearerFirst (w : Workflow) (t : list Event) : Prop :=
  ∀ t1 t2 y x k, t = t1 ++ EvStart y :: t2 →
    reachIn w k x → (∀ j, reachIn w j y → (k < j)%nat) → succeeded t1 x.

(** The queue of the loop as two layers: ids at [h] edges from the
    starter, then ids at [h + 1] edges; what is nearer has been visited. *)
Record Frontier (w : Workflow) (s : LoopState) (h : nat) (qa qb : list string)
  : Prop := {
  fr_queue : queue s = qa ++ qb;
  fr_near : ∀ q, q ∈ qa → reachIn w h q;
  fr_far : ∀ q, q ∈ qb → reachIn w (S h) q;
  fr_done : ∀ y k, reachIn w k y → (k < h)%nat → y ∈ visited s;
  fr_layer : ∀ y, reachIn w h y → y ∈ visited s ∨ y ∈ qa;
  fr_trace : nearerFirst w (trace (run_state s))
}.

(** ** The engine without observers

    Without observers no call of [log] throws: the definitions of the
    engine then read as follows. *)

Lemma log_noObservers r lvl msg nid :
  log noObservers r lvl msg nid = (logged r lvl msg nid, None).
Proof. done. Qed.

Lemma announce_noObservers node r :
  announce noObservers node r
  = (if isStarter node then r
     else logged r LevelInfo ("⚡ " +:+ node_type node +:+ ": " +:+ node_id node)
                 (Some (node_id node)), None).
Proof. unfold announce. by destruct (isStarter node). Qed.

Lemma invokeBlock_noObservers reg w node env r :
  invokeBlock noObservers reg w node env r
  = let r1 := (announce noObservers node r).1 in
    match blockOf reg w node env with
    | None =>
        (r1, Abrupt (ErrorObj ("Block type " +:+ node_type node +:+
                               " not found or not executable")))
    | Some b => runBlock noObservers b (node_id node) r1
    end.
Proof. unfold invokeBlock. by rewrite announce_noObservers. Qed.

Lemma executeNode_noObservers reg w node env r :
  executeNode noObservers reg w node env r
  = let id := node_id node in
    let t0 := now r in
    match invokeBlock noObservers reg w node env (enterNode node r) with
    | (r1, Normal result) =>
        let returnOutputs :=
          if isObjectLike result then asRecord result else {[ "value" := result ]} in
        let outs := returnOutputs ∪ slot (nodeOutputs r1) id in
        let r2 := emit (EvSuccess id outs)
                    (withExecution
                       (setNodeExecution id (successRecord node t0 (now r1) outs)) r1) in
        let r3 :=
          if isObjectLike result
          then withNodeOutputs
                 (<[id := asRecord result ∪ slot (nodeOutputs r2) id]> (nodeOutputs r2)) r2
          else r2 in
        let r4 :=
          if isStarter node then r3
          else logged r3 LevelInfo ("✅ " +:+ node_type node +:+ " completed") (Some id) in
        (r4, None)
    | (r1, Abrupt e) =>
        let msg := errorMessage e in
        let r2 := emit (EvError id)
                    (withExecution
                       (setNodeExecution id
                          (failedRecord (runningRecord node t0) t0 (now r1) msg)) r1) in
        (logged r2 LevelError ("🚨 Node failed: " +:+ msg) (Some id), Some e)
    end.
Proof.
  unfold executeNode, conclude, failNode; simpl.
  destruct (invokeBlock noObservers reg w node env (enterNode node r)) as [r1 [result|e]];
    [|done].
  by destruct (isStarter node).
Qed.

Lemma iteration_noObservers reg w env s :
  iteration noObservers reg w env s
  = let r := run_state s in
    match queue s with
    | [] => Done r
    | nid :: rest =>
        if aborted r then Done (withExecution (setStatus Cancelled) r)
        else if decide (nid ∈ visited s) then
          Continue {| visited := visited s; queue := rest; run_state := r |}
        else
          let visited' := {[ nid ]} ∪ visited s in
          match findNode w nid with
          | None => Continue {| visited := visited'; queue := rest; run_state := r |}
          | Some node =>
              match executeNode noObservers reg w node env r with
              | (r1, Some e) =>
                  let r2 := withExecution (setStatus Error) r1 in
                  Raise (logged r2 LevelError
                           ("❌ Node " +:+ dquote +:+ node_id node +:+ dquote +:+
                            " failed: " +:+ errorMessage e) None) e
              | (r1, None) =>
                  let nextNodes := getConnectedNodes w nid in
                  let pushed :=
                    node_id <$> filter (fun n => node_id n ∉ visited') nextNodes in
                  Continue {| visited := visited'; queue := rest ++ pushed;
                              run_state := r1 |}
              end
          end
    end.
Proof. done. Qed.

Lemma tryBody_noObservers reg w env r :
  tryBody noObservers reg w env r
  = match validateWorkflow w with
    | Abrupt e => Some (r, Some e)
    | Normal _ =>
        let r0 := withNodeOutputs ∅ r in
        match findNode w (starterId w) with
        | None => Some (r0, Some (ErrorObj "Start node not found"))
        | Some startNode =>
            match loop noObservers reg (loopFuel w) w env
                    {| visited := ∅; queue := [node_id startNode]; run_state := r0 |} with
            | None => None
            | Some (r1, Some e) => Some (r1, Some e)
            | Some (r1, None) =>
                match status (execution r1) with
                | Cancelled => Some (r1, None)
                | _ =>
                    Some (logged (withExecution (setStatus Success) r1) LevelInfo
                            "✅ Workflow completed" None, None)
                end
            end
        end
    end.
Proof. done. Qed.

Lemma runEngine_noObservers reg w env t0 :
  runEngine noObservers reg w env t0
  = let r := logged (initialRun w t0) LevelInfo
               ("🚀 Starting workflow: " +:+ wf_name w) None in
    match tryBody noObservers reg w env r with
    | None => None
    | Some (r1, exc) =>
        let r2 :=
          match exc with
          | Some e =>
              logged (withExecution (setStatus Error) r1) LevelError
                     ("💥 Workflow failed: " +:+ errorMessage e) None
          | None => r1
          end in
        Some (withExecution (finish (now r2)) r2, None)
    end.
Proof.
  unfold runEngine; simpl.
  destruct (tryBody noObservers reg w env _) as [[r1 [e|]]|]; done.
Qed.

Lemma runWorkflow_noObservers reg w env t0 :
  runWorkflow noObservers reg w env t0
  = let r := logged (initialRun w t0) LevelInfo
               ("🚀 Starting workflow: " +:+ wf_name w) None in
    match tryBody noObservers reg w env r with
    | None => None
    | Some (r1, exc) =>
        let r2 :=
          match exc with
          | Some e =>
              logged (withExecution (setStatus Error) r1) LevelError
                     ("💥 Workflow failed: " +:+ errorMessage e) None
          | None => r1
          end in
        Some (withExecution (finish (now r2)) r2)
    end.
Proof.
  unfold runWorkflow. rewrite runEngine_noObservers; simpl.
  by destruct (tryBody noObservers reg w env _) as [[r1 exc]|].
Qed.

(** Without observers the promise is the state in which the run ends. *)
Lemma executeWorkflow_noObservers reg w env t0 :
  executeWorkflow noObservers reg w env t0
  = match runWorkflow noObservers reg w env t0 with
    | Some r => Resolved (execution r)
    | None => Pending
    end.
Proof.
  unfold executeWorkflow. rewrite runWorkflow_noObservers, runEngine_noObservers; simpl.
  by destruct (tryBody noObservers reg w env _) as [[r1 exc]|].
Qed.

(** ** Observers that return

    With observers that do not throw the engine runs as it does without
    observers. *)

Section Quiet.

Context (obs : Observers) (Hquiet : quiet obs).
Context (reg : string → option BlockConfig).

Lemma log_quiet r lvl msg nid : log obs r lvl msg nid = log noObservers r lvl msg nid.
Proof. unfold log. by rewrite (proj1 Hquiet). Qed.

Lemma runBlock_quiet b id r : runBlock obs b id r = runBlock noObservers b id r.
Proof.
  revert r.
  induction b as [v|e|key val k IH|nid key k IH|change k IH|msg k IH|k IH|ms stopped k IH];
    intros r; simpl; try done; try apply IH.
  rewrite (proj1 Hquiet). apply IH.
Qed.

Lemma outputWrites_quiet b id r : outputWrites obs b id r = outputWrites noObservers b id r.
Proof.
  revert r.
  induction b as [v|e|key val k IH|nid key k IH|change k IH|msg k IH|k IH|ms stopped k IH];
    intros r; simpl; try done; try apply IH.
  - by rewrite IH.
  - rewrite (proj1 Hquiet). apply IH.
Qed.

Lemma announce_quiet node r : announce obs node r = announce noObservers node r.
Proof. unfold announce. by rewrite log_quiet. Qed.

Lemma invokeBlock_quiet w node env r :
  invokeBlock obs reg w node env r = invokeBlock noObservers reg w node env r.
Proof.
  unfold invokeBlock. rewrite announce_quiet.
  destruct (announce noObservers node r) as [r1 [e|]]; [done|].
  destruct (blockOf reg w node env); [apply runBlock_quiet|done].
Qed.

Lemma failNode_quiet node ne t0 r e :
  failNode obs node ne t0 r e = failNode noObservers node ne t0 r e.
Proof. unfold failNode. by rewrite log_quiet. Qed.

Lemma executeNode_quiet w node env r :
  executeNode obs reg w node env r = executeNode noObservers reg w node env r.
Proof.
  unfold executeNode. rewrite !(proj2 Hquiet), invokeBlock_quiet. simpl.
  destruct (invokeBlock noObservers reg w node env (enterNode node r)) as [r1 [result|e]];
    [|apply failNode_quiet].
  unfold conclude. rewrite log_quiet.
  destruct (isStarter node); simpl; by rewrite ?(proj2 Hquiet).
Qed.

Lemma iteration_quiet w env s :
  iteration obs reg w env s = iteration noObservers reg w env s.
Proof.
  unfold iteration. destruct (queue s) as [|nid rest]; [done|].
  destruct (aborted (run_state s)); [done|].
  destruct (decide (nid ∈ visited s)); [done|].
  destruct (findNode w nid) as [node|]; [|done].
  rewrite executeNode_quiet.
  destruct (executeNode noObservers reg w node env (run_state s)) as [r1 [e|]]; [|done].
  by rewrite log_quiet.
Qed.

Lemma loop_quiet fuel w env s :
  loop obs reg fuel w env s = loop noObservers reg fuel w env s.
Proof.
  revert s. induction fuel as [|fuel IH]; intros s; simpl; [done|].
  rewrite iteration_quiet.
  destruct (iteration noObservers reg w env s); [apply IH|done..].
Qed.

Lemma loopState_quiet w env n s :
  loopState obs reg w env n s = loopState noObservers reg w env n s.
Proof.
  revert s. induction n as [|n IH]; intros s; simpl; [done|].
  rewrite iteration_quiet.
  destruct (iteration noObservers reg w env s); [apply IH|done..].
Qed.

Lemma tryBody_quiet w env r : tryBody obs reg w env r = tryBody noObservers reg w env r.
Proof.
  unfold tryBody. destruct (validateWorkflow w); [|done].
  destruct (findNode w (starterId w)); [|done]. rewrite loop_quiet.
  destruct (loop noObservers reg _ w env _) as [[r1 [e|]]|]; [done| |done].
  destruct (status (execution r1)); by rewrite ?log_quiet.
Qed.

Lemma runEngine_quiet w env t0 :
  runEngine obs reg w env t0 = runEngine noObservers reg w env t0.
Proof.
  unfold runEngine. rewrite log_quiet. simpl. rewrite tryBody_quiet.
  destruct (tryBody noObservers reg w env _) as [[r1 [e|]]|]; [|done..].
  by rewrite log_quiet.
Qed.

Lemma runWorkflow_quiet w env t0 :
  runWorkflow obs reg w env t0 = runWorkflow noObservers reg w env t0.
Proof. unfold runWorkflow. by rewrite runEngine_quiet. Qed.

Lemma startWorkflow_quiet w env t0 :
  startWorkflow obs reg w env t0 = startWorkflow noObservers reg w env t0.
Proof. unfold startWorkflow, executeWorkflow. by rewrite runEngine_quiet. Qed.

End Quiet.

Lemma quiet_noObservers : quiet noObservers.
Proof. by split. Qed.

Lemma quiet_silentObservers : quiet silentObservers.
Proof. by split. Qed.

(** ** Running a block *)

Lemma appendLogs_nil e : appendLogs [] e = e.
Proof. destruct e; unfold appendLogs; simpl. by rewrite app_nil_r. Qed.

Lemma appendLogs_app a b e : appendLogs b (appendLogs a e) = appendLogs (a ++ b) e.
Proof. unfold appendLogs; simpl. by rewrite app_assoc. Qed.

Lemma abortedAfter_app s1 s2 a :
  abortedAfter s2 (abortedAfter s1 a) = abortedAfter (s1 ++ s2) a.
Proof. by destruct s1, s2. Qed.

Lemma BlockRan_refl id r : BlockRan id r r.
Proof.
  split.
  - exists []. by rewrite appendLogs_nil.
  - exists []. by rewrite app_nil_r.
Qed.

Lemma BlockRan_trans id r1 r2 r3 :
  BlockRan id r1 r2 → BlockRan id r2 r3 → BlockRan id r1 r3.
Proof.
  intros [[e1 He1] (s1 & Ht1 & Hf1 & Ha1)] [[e2 He2] (s2 & Ht2 & Hf2 & Ha2)].
  split.
  - exists (e1 ++ e2). by rewrite He2, He1, appendLogs_app.
  - exists (s1 ++ s2). split_and!.
    + by rewrite Ht2, Ht1, app_assoc.
    + by apply Forall_app.
    + by rewrite Ha2, Ha1, abortedAfter_app.
Qed.

Lemma BlockRan_log id r lvl msg nid : BlockRan id r (logged r lvl msg nid).
Proof.
  split; simpl.
  - by eexists [_].
  - exists []. by rewrite app_nil_r.
Qed.

Lemma BlockRan_outputs id r m : BlockRan id r (withNodeOutputs m r).
Proof.
  split; simpl.
  - exists []. by rewrite appendLogs_nil.
  - exists []. by rewrite app_nil_r.
Qed.

Lemma runBlock_ran obs b id r : BlockRan id r (runBlock obs b id r).1.
Proof.
  revert r.
  induction b as [v|e|key val k IH|nid key k IH|change k IH|msg k IH|k IH|ms stopped k IH];
    intros r; simpl; try apply BlockRan_refl; try apply IH.
  - eapply BlockRan_trans; [apply BlockRan_outputs|apply IH].
  - eapply BlockRan_trans; [apply BlockRan_outputs|apply IH].
  - eapply BlockRan_trans; [apply BlockRan_log|apply IH].
  - eapply BlockRan_trans; [|apply IH]. destruct stopped; split; simpl.
    + exists []. by rewrite appendLogs_nil.
    + exists [EvStop]. split_and!; [done | by constructor | done].
    + exists []. by rewrite appendLogs_nil.
    + exists []. by rewrite app_nil_r.
Qed.


(** and changes its own slot by its [setNodeOutput] calls only. *)
Lemma runBlock_slot obs b id r :
  accessorOnly b →
  slot (nodeOutputs (runBlock obs b id r).1) id
  = applyWrites (outputWrites obs b id r) (slot (nodeOutputs r) id).
Proof.
  intros Hb. revert r.
  induction Hb as [v|e|key val k _ IH|nid key k _ IH|msg k _ IH|k _ IH|ms stopped k _ IH];
    intros r; simpl; try done; try apply IH.
  - rewrite IH. simpl. unfold setNodeOutput, slot at 2. by rewrite lookup_insert_eq.
  - by rewrite IH.
  - rewrite IH. by destruct stopped.
Qed.

(** ** Executing a node *)

Section NodeFacts.

Context (reg : string → option BlockConfig).

Lemma invokeBlock_ran w node env r :
  BlockRan (node_id node) r (invokeBlock noObservers reg w node env r).1.
Proof.
  rewrite invokeBlock_noObservers, announce_noObservers. simpl.
  assert (BlockRan (node_id node) r
            (if isStarter node then r
             else logged r LevelInfo ("⚡ " +:+ node_type node +:+ ": " +:+ node_id node)
                         (Some (node_id node)))) as Hr1.
  { destruct (isStarter node); [apply BlockRan_refl | apply BlockRan_log]. }
  destruct (blockOf reg w node env) as [b|]; simpl; [|done].
  eapply BlockRan_trans; [exact Hr1 | apply runBlock_ran].
Qed.

Lemma executeNode_ran w node env r :
  NodeRan (node_id node) r (executeNode noObservers reg w node env r).1
          (executeNode noObservers reg w node env r).2.
Proof.
  rewrite executeNode_noObservers.
  pose proof (invokeBlock_ran w node env (enterNode node r)) as Hb.
  destruct (invokeBlock noObservers reg w node env (enterNode node r)) as [r1 [result|e]];
    simpl in *; destruct Hb as [[extra He] (stops & Ht & Hs & Ha)].
  - destruct (isStarter node), (isObjectLike result); split; simpl;
      try (by rewrite He);
      try (rewrite He; simpl; rewrite <- ?app_assoc; by eexists);
      (eexists stops, _, _; split_and!;
       [ rewrite Ht; simpl; rewrite <- !app_assoc; reflexivity
       | done
       | by rewrite Ha
       | rewrite He; simpl; by rewrite insert_insert_eq
       | done
       | by eexists ]).
  - split; simpl.
    + by rewrite He.
    + rewrite He; simpl. rewrite <- app_assoc. by eexists.
    + eexists stops, _, _. split_and!.
      * rewrite Ht; simpl. rewrite <- !app_assoc. reflexivity.
      * done.
      * by rewrite Ha.
      * rewrite He; simpl. by rewrite insert_insert_eq.
      * done.
      * done.
      * eexists. split;
          [apply elem_of_app; right; by apply list_elem_of_singleton | done].
Qed.



End NodeFacts.

(** ** Traces *)

Lemma segment_elem t id stops fin (ev : Event) :
  ev ∈ t ++ EvStart id :: stops ++ [fin] ↔
  ev ∈ t ∨ ev = EvStart id ∨ ev ∈ stops ∨ ev = fin.
Proof. rewrite elem_of_app, elem_of_cons, elem_of_app, list_elem_of_singleton. tauto. Qed.

Lemma stops_elem stops (ev : Event) : Forall (eq EvStop) stops → ev ∈ stops → ev = EvStop.
Proof. intros Hs Hev. rewrite Forall_forall in Hs. symmetry. by apply Hs. Qed.

Lemma segment_split t id stops fin t1 (ev : Event) t2 :
  t ++ EvStart id :: stops ++ [fin] = t1 ++ ev :: t2 →
  (∃ l, t = t1 ++ ev :: l ∧ t2 = l ++ EvStart id :: stops ++ [fin]) ∨
  (t1 = t ∧ ev = EvStart id ∧ t2 = stops ++ [fin]) ∨
  (∃ l, t1 = t ++ EvStart id :: l ∧ stops ++ [fin] = l ++ ev :: t2).
Proof.
  intros H. apply app_eq_inv in H as [[k [H1 H2]]|[k [H1 H2]]].
  - destruct k as [|e k]; simpl in H2.
    + right; left. rewrite app_nil_r in H1. by simplify_eq.
    + left. simplify_eq. by eexists.
  - destruct k as [|e k]; simpl in H2.
    + right; left. rewrite app_nil_r in H1. by simplify_eq.
    + right; right. simplify_eq. by eexists.
Qed.

Lemma succeeded_app_l t t' x : succeeded t x → succeeded (t ++ t') x.
Proof. intros [o Ho]. exists o. apply elem_of_app. by left. Qed.

Section TraceFacts.

Context (w : Workflow).

Lemma TraceOK_success_started t x o :
  TraceOK w t → EvSuccess x o ∈ t → EvStart x ∈ t.
Proof.
  induction 1 as [|t id stops fin Ht IH Herr Hstop Hnew Hpred Hs Hfin]; intros Hx.
  - by apply elem_of_nil in Hx.
  - apply segment_elem in Hx. apply segment_elem.
    destruct Hx as [Hx|[Hx|[Hx|Hx]]].
    + left. by apply IH.
    + done.
    + by apply (stops_elem _ _ Hs) in Hx.
    + right; left. destruct Hfin as [->|[outs ->]]; by simplify_eq.
Qed.

Lemma TraceOK_exclusive t a :
  TraceOK w t → EvError a ∈ t → ¬ succeeded t a.
Proof.
  destruct 1 as [|t id stops fin Ht Herr Hstop Hnew Hpred Hs Hfin]; intros Ha [o Ho].
  - by apply elem_of_nil in Ha.
  - apply segment_elem in Ha. apply segment_elem in Ho.
    destruct Ha as [Ha|[Ha|[Ha|Ha]]]; [by apply Herr in Ha|done| |].
    { by apply (stops_elem _ _ Hs) in Ha. }
    destruct Hfin as [->|[outs ->]]; [|done]. simplify_eq.
    destruct Ho as [Ho|[Ho|[Ho|Ho]]]; [|done| |done].
    + apply Hnew. by eapply TraceOK_success_started.
    + by apply (stops_elem _ _ Hs) in Ho.
Qed.

Lemma startedIds_segment t id stops fin :
  Forall (eq EvStop) stops →
  (fin = EvError id ∨ ∃ outs, fin = EvSuccess id outs) →
  startedIds (t ++ EvStart id :: stops ++ [fin]) = startedIds t ++ [id].
Proof.
  intros Hs Hfin. unfold startedIds.
  rewrite omap_app. f_equal. simpl. f_equal. rewrite omap_app.
  assert (omap (λ ev, match ev with EvStart i => Some i | _ => None end) stops = []) as ->.
  { induction Hs as [|e l <- _ IH]; [done|]. simpl. exact IH. }
  by destruct Hfin as [->|[outs ->]].
Qed.

Lemma startedIds_elem t x : x ∈ startedIds t ↔ EvStart x ∈ t.
Proof.
  unfold startedIds. rewrite list_elem_of_omap. split.
  - intros [ev [Hev Heq]]. destruct ev; by simplify_eq.
  - intros H. by exists (EvStart x).
Qed.

Lemma TraceOK_NoDup t : TraceOK w t → NoDup (startedIds t).
Proof.
  induction 1 as [|t id stops fin Ht IH Herr Hstop Hnew Hpred Hs Hfin].
  - constructor.
  - rewrite startedIds_segment by done. apply NoDup_app. split_and!.
    + done.
    + intros x Hx Hin. apply list_elem_of_singleton in Hin as ->.
      by apply startedIds_elem in Hx.
    + apply NoDup_singleton.
Qed.

Lemma TraceOK_order t : TraceOK w t → startsAfterSome w t.
Proof.
  induction 1 as [|t id stops fin Ht IH Herr Hstop Hnew Hpred Hs Hfin];
    intros t1 t2 n Heq.
  - by destruct t1.
  - apply segment_split in Heq as [[l [H1 H2]]|[[H1 [H2 H3]]|[l [H1 H2]]]].
    + by apply (IH _ _ _ H1).
    + by simplify_eq.
    + assert (EvStart n ∈ stops ++ [fin]) as Hin.
      { rewrite H2. apply elem_of_app. right. by left. }
      apply elem_of_app in Hin as [Hin|Hin].
      * by apply (stops_elem _ _ Hs) in Hin.
      * apply list_elem_of_singleton in Hin. by destruct Hfin as [->|[outs ->]].
Qed.


(** A node that began has a path from the starter along succeeded nodes. *)
Lemma TraceOK_path t x :
  TraceOK w t → EvStart x ∈ t →
  ∃ p, pathTo w p x ∧ ∀ y, y ∈ p → y = x ∨ succeeded t y.
Proof.
  intros Ht. revert x.
  induction Ht as [|t id stops fin Ht IH Herr Hstop Hnew Hpred Hs Hfin]; intros x Hx.
  - by apply elem_of_nil in Hx.
  - assert (∀ y, EvStart y ∈ t →
              ∃ p, pathTo w p y ∧
                   ∀ z, z ∈ p → z = y ∨ succeeded (t ++ EvStart id :: stops ++ [fin]) z)
      as IH'.
    { intros y Hy. destruct (IH y Hy) as [p [Hp Hall]]. exists p. split; [done|].
      intros z Hz. destruct (Hall z Hz) as [->|Hz']; [by left|right].
      by apply succeeded_app_l. }
    apply segment_elem in Hx. destruct Hx as [Hx|[Hx|[Hx|Hx]]].
    + by apply IH'.
    + simplify_eq. destruct Hpred as [->|[p [He Hp]]].
      * exists [starterId w]. split; [constructor|].
        intros y Hy. apply list_elem_of_singleton in Hy. by left.
      * destruct Hp as [o Ho].
        destruct (IH' p (TraceOK_success_started _ _ _ Ht Ho)) as [path [Hpath Hall]].
        exists (path ++ [id]). split; [by econstructor|].
        intros y Hy. apply elem_of_app in Hy as [Hy|Hy].
        -- destruct (Hall y Hy) as [->|Hy']; [|by right].
           right. apply succeeded_app_l. by exists o.
        -- apply list_elem_of_singleton in Hy. by left.
    + by apply (stops_elem _ _ Hs) in Hx.
    + by destruct Hfin as [->|[outs ->]].
Qed.

(** A failure is the last event of its trace. *)
Lemma TraceOK_error_last t a :
  TraceOK w t → EvError a ∈ t → ∃ t', t = t' ++ [EvError a].
Proof.
  destruct 1 as [|t id stops fin Ht Herr Hstop Hnew Hpred Hs Hfin]; intros Ha.
  - by apply elem_of_nil in Ha.
  - apply segment_elem in Ha.
    destruct Ha as [Ha|[Ha|[Ha|Ha]]]; [by apply Herr in Ha|done| |].
    { by apply (stops_elem _ _ Hs) in Ha. }
    subst fin. exists (t ++ EvStart id :: stops).
    by rewrite <- app_assoc.
Qed.

End TraceFacts.

(** ** The loop *)

Lemma RunOK_ext w r r' :
  RunOK w r →
  trace r' = trace r →
  nodeExecutions (execution r') = nodeExecutions (execution r) →
  aborted r' = aborted r →
  (∃ extra, logs (execution r') = logs (execution r) ++ extra) →
  RunOK w r'.
Proof.
  intros [Ht Hsucc Hlog Hrec Hab] Htr Hne Ha [extra Hl].
  split; rewrite ?Htr, ?Hne, ?Ha; try done.
  intros a Hin. destruct (Hlog a Hin) as [l [Hl1 Hl2]].
  exists l. split; [|done]. rewrite Hl. apply elem_of_app. by left.
Qed.

Lemma RunOK_node w r r' id res :
  RunOK w r →
  (∀ a, EvError a ∉ trace r) →
  aborted r = false →
  EvStart id ∉ trace r →
  (id = starterId w ∨ ∃ p, hasEdge w p id ∧ succeeded (trace r) p) →
  NodeRan id r r' res →
  RunOK w r'.
Proof.
  intros [Ht Hsucc Hlog Hrec Hab] Hnoerr Ha Hnew Hpred [Hst Hlogs Hev].
  destruct Hev as (stops & fin & ne & Htr & Hs & Hab' & Hne & Hout).
  assert (EvStop ∉ trace r) as Hnostop.
  { intros Hin. apply Hab in Hin. congruence. }
  assert (fin = EvError id ∨ ∃ outs, fin = EvSuccess id outs) as Hfin.
  { destruct res; simpl in Hout.
    - left. tauto.
    - right. destruct Hout as [_ [outs [_ ->]]]. by eexists. }
  split.
  - rewrite Htr. by constructor.
  - intros x o Hin. rewrite Htr in Hin. apply segment_elem in Hin.
    rewrite Hne. destruct Hin as [Hin|[Hin|[Hin|Hin]]].
    + rewrite lookup_insert_ne; [by apply Hsucc|].
      intros ->. apply Hnew. by eapply TraceOK_success_started.
    + done.
    + by apply (stops_elem _ _ Hs) in Hin.
    + destruct res; simpl in Hout.
      * destruct Hout as [_ [-> _]]. done.
      * destruct Hout as [Hst' [outs [Houts ->]]]. simplify_eq.
        exists ne. by rewrite lookup_insert_eq.
  - intros a Hin. rewrite Htr in Hin. apply segment_elem in Hin.
    destruct Hin as [Hin|[Hin|[Hin|Hin]]].
    + by apply Hnoerr in Hin.
    + done.
    + by apply (stops_elem _ _ Hs) in Hin.
    + destruct res; simpl in Hout.
      * destruct Hout as [_ [-> Hl]]. by simplify_eq.
      * destruct Hout as [_ [outs [_ ->]]]. done.
  - intros j ne' Hj Herr. rewrite Hne in Hj. rewrite Htr. apply segment_elem.
    destruct (decide (id = j)) as [->|Hneq].
    + rewrite lookup_insert_eq in Hj. simplify_eq.
      destruct res; simpl in Hout.
      * destruct Hout as [_ [-> _]]. tauto.
      * destruct Hout as [Hst' _]. congruence.
    + rewrite lookup_insert_ne in Hj by done. left. by eapply Hrec.
  - rewrite Hab', Htr, segment_elem. destruct stops as [|s0 stops]; simpl.
    + rewrite Ha. split; [done|]. intros [?|[?|[H|?]]]; try done.
      * by apply elem_of_nil in H.
      * subst. by destruct Hfin as [?|[? ?]].
    + split; [|done]. intros _. right; right; left.
      apply Forall_cons in Hs as [<- _]. by left.
Qed.

Lemma findNode_Some w id node :
  findNode w id = Some node → node ∈ nodes w ∧ node_id node = id.
Proof.
  unfold findNode. intros H. apply find_some in H as [Hin Hid].
  split; [by apply list_elem_of_In|]. by apply bool_decide_eq_true in Hid.
Qed.

Lemma findNode_None w id n : findNode w id = None → n ∈ nodes w → node_id n ≠ id.
Proof.
  unfold findNode. intros H Hin. apply list_elem_of_In in Hin.
  pose proof (find_none _ _ H n Hin) as Hn. by apply bool_decide_eq_false in Hn.
Qed.

Lemma getConnectedNodes_elem w x n :
  n ∈ getConnectedNodes w x ↔ n ∈ nodes w ∧ hasEdge w x (node_id n).
Proof.
  unfold getConnectedNodes, hasEdge. rewrite list_elem_of_filter, list_elem_of_fmap.
  split.
  - intros [[e [Ht He]] Hn]. apply list_elem_of_filter in He as [Hs He].
    split; [done|]. by exists e.
  - intros [Hn [e [He [Hs Ht]]]]. split; [|done].
    exists e. split; [done|]. by apply list_elem_of_filter.
Qed.

Section LoopFacts.

Context (reg : string → option BlockConfig) (w : Workflow) (env : gmap string string).

Lemma iteration_inv s :
  LoopInv w s →
  match iteration noObservers reg w env s with
  | Continue s' => LoopInv w s'
  | Done r => LoopPost w (r, None)
  | Raise r e => LoopPost w (r, Some e)
  end.
Proof.
  destruct s as [v q r]. intros [Hok Hrun Hnoerr Hvis Hstarted Hq Hcomp].
  rewrite iteration_noObservers; simpl in *.
  destruct q as [|nid rest].
  { (* the queue is empty *)
    split; [done|]. simpl. split; [done|]. left. split; [done|].
    intros x n Hx Hn He. destruct (Hcomp x n Hx Hn He) as [Hv|Hv].
    - by apply Hstarted.
    - by apply elem_of_nil in Hv. }
  destruct (aborted r) eqn:Ha.
  { (* the run was stopped *)
    split; simpl.
    - eapply RunOK_ext; [exact Hok|done..|]. exists []. by rewrite app_nil_r.
    - split; [done|]. by right. }
  destruct (decide (nid ∈ v)) as [Hin|Hnotin].
  { (* already visited *)
    split; simpl; try done.
    - intros q' Hq'. apply Hq. by right.
    - intros x n Hx Hn He. destruct (Hcomp x n Hx Hn He) as [Hv|Hv]; [by left|].
      apply elem_of_cons in Hv as [->|Hv]; [by left|by right]. }
  destruct (findNode w nid) as [node|] eqn:Hfind.
  2:{ (* not a node of the workflow *)
    split; simpl; try done.
    - intros x Hx. apply elem_of_union. right. by apply Hvis.
    - intros n Hn Hv. apply elem_of_union in Hv as [Hv|Hv]; [|by apply Hstarted].
      apply elem_of_singleton in Hv. by destruct (findNode_None _ _ _ Hfind Hn).
    - intros q' Hq'. apply Hq. by right.
    - intros x n Hx Hn He. destruct (Hcomp x n Hx Hn He) as [Hv|Hv].
      + left. apply elem_of_union. by right.
      + apply elem_of_cons in Hv as [->|Hv]; [left|by right].
        apply elem_of_union. left. by apply elem_of_singleton. }
  apply findNode_Some in Hfind as [Hnode Hid].
  pose proof (executeNode_ran reg w node env r) as Hran. rewrite Hid in Hran.
  destruct (executeNode noObservers reg w node env r) as [r1 res]. simpl in Hran.
  assert (EvStart nid ∉ trace r) as Hnew by (intros H; by apply Hvis in H).
  assert (nid = starterId w ∨ ∃ p, hasEdge w p nid ∧ succeeded (trace r) p) as Hpred.
  { apply Hq. by left. }
  pose proof (RunOK_node _ _ _ _ _ Hok Hnoerr Ha Hnew Hpred Hran) as Hok1.
  destruct Hran as [Hst Hlogs Hev].
  destruct Hev as (stops & fin & ne & Htr & Hs & Hab' & Hne & Hout).
  destruct res as [e|]; simpl in Hout.
  { (* the node failed *)
    split; simpl.
    - eapply RunOK_ext; [exact Hok1|done..|]. by eexists [_].
    - split; [done|]. exists nid. rewrite Htr. apply segment_elem.
      destruct Hout as [_ [-> _]]. tauto. }
  destruct Hout as [Hne_st [outs [Houts ->]]].
  assert (∀ x, succeeded (trace r1) x → succeeded (trace r) x ∨ x = nid) as Hsucc.
  { intros x [o Ho]. rewrite Htr in Ho. apply segment_elem in Ho.
    destruct Ho as [Ho|[Ho|[Ho|Ho]]].
    - left. by exists o.
    - done.
    - by apply (stops_elem _ _ Hs) in Ho.
    - right. by simplify_eq. }
  assert (succeeded (trace r1) nid) as Hnid.
  { exists outs. rewrite Htr. apply segment_elem. tauto. }
  split; simpl.
  - done.
  - congruence.
  - intros a Ha'. rewrite Htr in Ha'. apply segment_elem in Ha'.
    destruct Ha' as [Hx|[Hx|[Hx|Hx]]]; [by apply Hnoerr in Hx|done| |done].
    by apply (stops_elem _ _ Hs) in Hx.
  - intros x Hx. rewrite Htr in Hx. apply segment_elem in Hx. apply elem_of_union.
    destruct Hx as [Hx|[Hx|[Hx|Hx]]]; [right; by apply Hvis| | |done].
    + left. apply elem_of_singleton. by simplify_eq.
    + by apply (stops_elem _ _ Hs) in Hx.
  - intros n Hn Hv. rewrite Htr. apply segment_elem.
    apply elem_of_union in Hv as [Hv|Hv].
    + apply elem_of_singleton in Hv. rewrite Hv. tauto.
    + left. by apply Hstarted.
  - intros q' Hq'. apply elem_of_app in Hq' as [Hq'|Hq'].
    + destruct (Hq q') as [?|[p [He Hp]]]; [by right|by left|].
      right. exists p. split; [done|]. rewrite Htr. by apply succeeded_app_l.
    + apply list_elem_of_fmap in Hq' as [n [-> Hn]].
      apply list_elem_of_filter in Hn as [_ Hn].
      apply getConnectedNodes_elem in Hn as [_ He].
      right. by exists nid.
  - intros x n Hx Hn He.
    destruct (decide (node_id n ∈ {[nid]} ∪ v)) as [Hv|Hv]; [by left|right].
    apply elem_of_app. destruct (Hsucc x Hx) as [Hx'| ->].
    + destruct (Hcomp x n Hx' Hn He) as [Hv'|Hv'].
      * destruct Hv. apply elem_of_union. by right.
      * apply elem_of_cons in Hv' as [Heq|Hv']; [|by left].
        destruct Hv. apply elem_of_union. left. by apply elem_of_singleton.
    + right. apply list_elem_of_fmap. exists n. split; [done|].
      apply list_elem_of_filter. split; [done|].
      by apply getConnectedNodes_elem.
Qed.

Lemma loop_sound fuel s res :
  LoopInv w s → loop noObservers reg fuel w env s = Some res → LoopPost w res.
Proof.
  revert s. induction fuel as [|fuel IH]; intros s Hinv Hloop; simpl in Hloop; [done|].
  pose proof (iteration_inv s Hinv) as Hit.
  destruct (iteration noObservers reg w env s) as [s'|r|r e].
  - by eapply IH.
  - by simplify_eq.
  - by simplify_eq.
Qed.

End LoopFacts.

(** ** Termination of the loop *)

Lemma size_list_to_set_le (l : list string) :
  (size (list_to_set l : gset string) ≤ length l)%nat.
Proof.
  induction l as [|x l IH].
  - by rewrite list_to_set_nil, size_empty.
  - rewrite list_to_set_cons, size_union_alt, size_singleton. simpl.
    pose proof (subseteq_size (list_to_set l ∖ {[x]}) (list_to_set l : gset string)) as H.
    assert ((list_to_set l ∖ {[x]} : gset string) ⊆ list_to_set l) as Hsub by set_solver.
    specialize (H Hsub). lia.
Qed.

Lemma size_nodeIds w : (size (nodeIds w) ≤ length (nodes w))%nat.
Proof.
  unfold nodeIds. etrans; [apply size_list_to_set_le|]. by rewrite length_fmap.
Qed.

Section Termination.

Context (reg : string → option BlockConfig) (w : Workflow) (env : gmap string string).

Lemma iteration_measure s s' :
  iteration noObservers reg w env s = Continue s' → (measure w s' < measure w s)%nat.
Proof.
  destruct s as [v q r]. rewrite iteration_noObservers. unfold measure; simpl.
  destruct q as [|nid rest]; [done|].
  destruct (aborted r); [done|].
  destruct (decide (nid ∈ v)) as [Hin|Hnotin].
  { intros [= <-]; simpl. lia. }
  destruct (findNode w nid) as [node|] eqn:Hfind.
  2:{ intros [= <-]; simpl.
      assert (size (nodeIds w ∖ ({[nid]} ∪ v)) ≤ size (nodeIds w ∖ v))%nat as Hle.
      { apply subseteq_size. set_solver. }
      apply (Nat.mul_le_mono_l _ _ (S (length (nodes w)))) in Hle. lia. }
  apply findNode_Some in Hfind as [Hnode Hid].
  destruct (executeNode noObservers reg w node env r) as [r1 [e|]]; [done|].
  intros [= <-]; simpl.
  rewrite length_app, length_fmap.
  assert (length (filter (λ n, node_id n ∉ {[nid]} ∪ v) (getConnectedNodes w nid))
          ≤ length (nodes w))%nat as Hpush.
  { etrans; [apply length_filter|]. unfold getConnectedNodes. apply length_filter. }
  assert (size (nodeIds w ∖ ({[nid]} ∪ v)) < size (nodeIds w ∖ v))%nat as Hlt.
  { apply subset_size. apply strict_spec_alt. split; [set_solver|].
    intros Heq. assert (nid ∈ nodeIds w ∖ v) as Hmem.
    { apply elem_of_difference. split; [|done].
      unfold nodeIds. apply elem_of_list_to_set, list_elem_of_fmap. by exists node. }
    rewrite <- Heq in Hmem. set_solver. }
  assert (S (length (nodes w)) * S (size (nodeIds w ∖ ({[nid]} ∪ v)))
          ≤ S (length (nodes w)) * size (nodeIds w ∖ v))%nat as Hmul.
  { apply Nat.mul_le_mono_l. lia. }
  lia.
Qed.

Lemma loop_fuel_mono fuel fuel' s res :
  loop noObservers reg fuel w env s = Some res → (fuel ≤ fuel')%nat →
  loop noObservers reg fuel' w env s = Some res.
Proof.
  revert fuel' s. induction fuel as [|fuel IH]; intros fuel' s Hloop Hle; [done|].
  destruct fuel' as [|fuel']; [lia|]. simpl in *.
  destruct (iteration noObservers reg w env s) as [s'|r|r e]; [|done..].
  apply IH; [done|lia].
Qed.

Lemma loop_terminates fuel s :
  (measure w s < fuel)%nat → is_Some (loop noObservers reg fuel w env s).
Proof.
  revert s. induction fuel as [|fuel IH]; intros s Hm; [lia|]. simpl.
  destruct (iteration noObservers reg w env s) as [s'|r|r e] eqn:Hit; [|by eexists..].
  apply IH. apply iteration_measure in Hit. lia.
Qed.

(** The loop started in a state that it passes through ends as it does
    from the start. *)
Lemma loop_loopState fuel n s0 s res :
  loop noObservers reg fuel w env s0 = Some res →
  loopState noObservers reg w env n s0 = Some s →
  ∃ fuel', loop noObservers reg fuel' w env s = Some res.
Proof.
  revert fuel s0. induction n as [|n IH]; intros fuel s0 Hloop Hstate; simpl in Hstate.
  - simplify_eq. by exists fuel.
  - destruct fuel as [|fuel]; [done|]. simpl in Hloop.
    destruct (iteration noObservers reg w env s0) as [s'|r|r e]; [|done..].
    by eapply IH.
Qed.

Lemma loopFuel_enough start r :
  (measure w {| visited := ∅; queue := [start]; run_state := r |} < loopFuel w)%nat.
Proof.
  unfold measure, loopFuel; simpl.
  pose proof (size_nodeIds w) as Hn.
  assert (size (nodeIds w ∖ ∅) ≤ size (nodeIds w))%nat as Hle
    by (apply subseteq_size; set_solver).
  assert (S (length (nodes w)) * size (nodeIds w ∖ ∅)
          ≤ S (length (nodes w)) * length (nodes w))%nat as Hmul.
  { apply Nat.mul_le_mono_l. lia. }
  lia.
Qed.

End Termination.

(** ** The whole run *)

Lemma RunOK_initial w r :
  trace r = [] → nodeExecutions (execution r) = ∅ → aborted r = false → RunOK w r.
Proof.
  intros Ht Hne Ha. split; rewrite ?Ht, ?Hne, ?Ha.
  - constructor.
  - intros x o H. by apply elem_of_nil in H.
  - intros a H. by apply elem_of_nil in H.
  - intros id ne H. by rewrite lookup_empty in H.
  - split; [done|]. intros H. by apply elem_of_nil in H.
Qed.

Lemma FinalOK_failed w r msg :
  trace r = [] → nodeExecutions (execution r) = ∅ → aborted r = false →
  let r2 := logged (withExecution (setStatus Error) r) LevelError msg None in
  FinalOK w (withExecution (finish (now r2)) r2).
Proof.
  intros Ht Hne Ha r2. split; simpl; try done.
  - by apply RunOK_initial.
  - tauto.
  - intros _. by left.
Qed.

Section RunFacts.

Context (reg : string → option BlockConfig) (w : Workflow) (env : gmap string string).

Lemma LoopInv_initial start r :
  findNode w (starterId w) = Some start →
  status (execution r) = Running →
  trace r = [] → nodeExecutions (execution r) = ∅ → aborted r = false →
  LoopInv w {| visited := ∅; queue := [node_id start]; run_state := r |}.
Proof.
  intros Hstart Hst Ht Hne Ha. apply findNode_Some in Hstart as [_ Hid].
  split; simpl; rewrite ?Ht.
  - by apply RunOK_initial.
  - done.
  - intros a H. by apply elem_of_nil in H.
  - intros x H. by apply elem_of_nil in H.
  - intros n _ H. by apply elem_of_empty in H.
  - intros q H. apply list_elem_of_singleton in H. left. congruence.
  - intros x n [o H]. by apply elem_of_nil in H.
Qed.

(** [executeWorkflow] always returns, in a state described by [FinalOK]. *)
Lemma runWorkflow_final t0 :
  ∃ r, runWorkflow noObservers reg w env t0 = Some r ∧ FinalOK w r.
Proof.
  rewrite runWorkflow_noObservers. cbv zeta. rewrite tryBody_noObservers. cbv zeta.
  set (r0 := logged (initialRun w t0) LevelInfo _ None).
  destruct (validateWorkflow w) as [[]|e].
  2:{ eexists. split; [done|]. by apply FinalOK_failed. }
  destruct (findNode w (starterId w)) as [start|] eqn:Hstart.
  2:{ eexists. split; [done|]. by apply FinalOK_failed. }
  set (s0 := {| visited := ∅; queue := [node_id start];
                run_state := withNodeOutputs ∅ r0 |}).
  destruct (loop_terminates reg w env (loopFuel w) s0) as [[r1 exc] Hloop].
  { apply loopFuel_enough. }
  assert (LoopInv w s0) as Hinv by (by apply LoopInv_initial).
  pose proof (loop_sound reg w env _ _ _ Hinv Hloop) as [Hok Hpost].
  rewrite Hloop. simpl in Hok, Hpost.
  destruct exc as [e|].
  { (* a node failed *)
    destruct Hpost as [Hst [a Ha]].
    eexists. split; [done|]. split; simpl; try done.
    - eapply RunOK_ext; [exact Hok|done..|]. by eexists [_].
    - tauto.
    - intros _. by right; exists a. }
  destruct Hpost as [Hnoerr [[Hst Hcomp]|[Hst Hab]]]; rewrite Hst.
  - (* the queue ran empty *)
    eexists. split; [done|]. split; simpl; try done.
    + eapply RunOK_ext; [exact Hok|done..|]. by eexists [_].
    + tauto.
    + intros a Ha. by apply Hnoerr in Ha.
  - (* the run was stopped *)
    eexists. split; [done|]. split; simpl; try done.
    + eapply RunOK_ext; [exact Hok|done..|]. exists []. by rewrite app_nil_r.
    + tauto.
    + by rewrite Hst.
    + by rewrite Hst.
    + intros a Ha. by apply Hnoerr in Ha.
Qed.

End RunFacts.

(** ** Properties of a run

    Where a statement names no observers it is made of the engine
    without observers ([noObservers]); with observers that do not throw
    the engine runs in the same way ([runWorkflow_quiet],
    [startWorkflow_quiet], [executeNode_quiet]). *)

Section Claims.

Context (reg : string → option BlockConfig).

(** C10. For every workflow graph, with cycles or with nodes reachable
    along several paths, the loop of [executeWorkflow] ends within its
    fuel, the promise is resolved, and no node id begins execution twice. *)
Theorem loop_terminates_each_node_once (w : Workflow) (env : gmap string string) (t0 : Z) :
  ∃ r, runWorkflow noObservers reg w env t0 = Some r ∧
       executeWorkflow noObservers reg w env t0 = Resolved (execution r) ∧
       NoDup (startedIds (trace r)).
Proof.
  destruct (runWorkflow_final reg w env t0) as [r [Hrun Hfin]].
  exists r. split; [done|]. split.
  - rewrite executeWorkflow_noObservers. by rewrite Hrun.
  - apply (TraceOK_NoDup w). apply Hfin.
Qed.

(** C8, as the code has it. If no observer throws, the promise of
    [executeWorkflow] is resolved, never rejected, with a record whose
    status is [success], [error] or [cancelled] and whose [endTime] and
    [duration] are set; a node that ended in [error] shows as the status
    [error] of the run and as an error entry of the log that carries its
    id.  And no failure is swallowed: whenever the loop, in a run that
    passed validation, comes to execute a node whose type has no
    executable block or whose block throws, the promise is resolved with
    a record in status [error] in which the node is in status [error]
    with the message of the exception, and whose log ends with the entry
    of the node, the entry of the loop and the entry of the run that
    report the failure. *)
Theorem run_resolves_with_terminal_record (obs : Observers) (w : Workflow)
    (env : gmap string string) (t0 : Z) :
  quiet obs →
  (∃ rec, startWorkflow obs reg w env t0 = Resolved rec ∧
     (status rec = Success ∨ status rec = Error ∨ status rec = Cancelled) ∧
     (∃ t, endTime rec = Some t ∧ duration rec = Some (t - startTime rec)) ∧
     (∀ id ne, nodeExecutions rec !! id = Some ne → ne_status ne = Error →
        status rec = Error ∧
        ∃ l, l ∈ logs rec ∧ log_nodeId l = Some id ∧ level l = LevelError)) ∧
  (∀ n s nid rest node r1 e,
     validateWorkflow w = Normal tt →
     loopState obs reg w env n (loopStart w t0) = Some s →
     queue s = nid :: rest → aborted (run_state s) = false → nid ∉ visited s →
     findNode w nid = Some node →
     invokeBlock obs reg w node env (enterNode node (run_state s)) = (r1, Abrupt e) →
     ∃ rec ne pre,
       startWorkflow obs reg w env t0 = Resolved rec ∧
       status rec = Error ∧
       nodeExecutions rec !! nid = Some ne ∧ ne_status ne = Error ∧
       error ne = Some (errorMessage e) ∧
       logs rec = pre ++ [ {| log_nodeId := Some nid;
                              message := "🚨 Node failed: " +:+ errorMessage e;
                              level := LevelError |};
                           nodeFailedLog nid e; failedLog (errorMessage e) ]).
Proof.
  intros Hquiet. rewrite (startWorkflow_quiet obs Hquiet). split.
  - destruct (runWorkflow_final reg w env t0) as [r [Hrun Hfin]].
    exists (execution r). unfold startWorkflow.
    rewrite executeWorkflow_noObservers, Hrun.
    split; [done|]. split; [apply Hfin|]. split.
    + exists (now r). split; apply Hfin.
    + intros id ne Hne Herr.
      assert (EvError id ∈ trace r) as Hev by (by eapply ok_error_record; [apply Hfin|..]).
      split; [by eapply fin_node_error|]. by eapply ok_error_log; [apply Hfin|].
  - intros n s nid rest node r1 e Hval Hstate Hq Ha Hv Hfind Hblock.
    rewrite (loopState_quiet obs Hquiet) in Hstate.
    rewrite (invokeBlock_quiet obs Hquiet) in Hblock.
    unfold startWorkflow.
    rewrite executeWorkflow_noObservers, runWorkflow_noObservers. cbv zeta.
    rewrite tryBody_noObservers, Hval. cbv zeta.
    destruct (findNode w (starterId w)) as [start|] eqn:Hstart.
    2:{ unfold validateWorkflow in Hval. rewrite Hstart in Hval.
        by destruct (nodes w). }
    pose proof (findNode_Some _ _ _ Hstart) as [_ Hid]. rewrite Hid.
    fold (loopStart w t0).
    destruct (loop_terminates reg w env (loopFuel w) (loopStart w t0)) as [res Hloop].
    { apply loopFuel_enough. }
    destruct (loop_loopState reg w env _ _ _ _ _ Hloop Hstate) as [fuel Hloop'].
    rewrite Hloop. destruct fuel as [|fuel]; [done|]. simpl in Hloop'.
    rewrite iteration_noObservers in Hloop'. destruct s as [v q r]. simpl in *.
    subst q. rewrite Ha in Hloop'. rewrite decide_False in Hloop' by done.
    rewrite Hfind, executeNode_noObservers, Hblock in Hloop'. simpl in Hloop'.
    injection Hloop' as <-. simpl.
    pose proof (findNode_Some _ _ _ Hfind) as [_ <-].
    eexists _, _, (logs (execution r1)). split; [done|]. simpl.
    rewrite lookup_insert_eq. split_and!; try done.
    by rewrite <- !app_assoc.
Qed.

(** C5. If node [a] fails, the run ends with status [error], its log has
    an error entry that carries the id of [a], and no node reachable from
    the starter only through [a] ever begins execution; the failure is
    the last event of the run. *)
Theorem failure_stops_run (w : Workflow) (env : gmap string string) (t0 : Z)
    (r : Run) (a : string) :
  runWorkflow noObservers reg w env t0 = Some r →
  EvError a ∈ trace r →
  status (execution r) = Error ∧
  (∃ l, l ∈ logs (execution r) ∧ log_nodeId l = Some a ∧ level l = LevelError) ∧
  (∀ n, onlyThrough w a n → EvStart n ∉ trace r) ∧
  (∃ t, trace r = t ++ [EvError a]).
Proof.
  intros Hrun Ha.
  destruct (runWorkflow_final reg w env t0) as [r' [Hrun' Hfin]].
  assert (r' = r) as -> by congruence.
  pose proof (ok_trace _ _ (fin_ok _ _ Hfin)) as Ht.
  split; [by eapply fin_node_error|]. split; [by eapply ok_error_log; [apply Hfin|]|].
  split; [|by eapply TraceOK_error_last].
  intros n [Hna Hpaths] Hn.
  destruct (TraceOK_path w _ _ Ht Hn) as [p [Hp Hall]].
  destruct (Hall a (Hpaths p Hp)) as [->|Hsucc]; [done|].
  by apply (TraceOK_exclusive w _ _ Ht Ha).
Qed.

(** C1, as the code has it. Every node other than the starter begins
    execution only after at least one node with an edge into it has
    reached [success]; the other predecessors are not waited for. *)
Theorem node_starts_after_some_predecessor (w : Workflow) (env : gmap string string)
    (t0 : Z) :
  ∃ r, runWorkflow noObservers reg w env t0 = Some r ∧ startsAfterSome w (trace r).
Proof.
  destruct (runWorkflow_final reg w env t0) as [r [Hrun Hfin]].
  exists r. split; [done|]. apply TraceOK_order. apply Hfin.
Qed.

(** C3, as the code has it. When validation fails and the observer of
    the log does not throw, no node begins execution and nothing is
    thrown to the caller: the promise is resolved with the record created
    before validation, in status [error], with the validation message in
    its log, no node execution, and its end time and duration set. *)
Theorem validation_failure_resolves_with_error_record (obs : Observers) (w : Workflow)
    (env : gmap string string) (t0 : Z) (e : Thrown) :
  (∀ l, notify (onLog obs) l = None) →
  validateWorkflow w = Abrupt e →
  startWorkflow obs reg w env t0 =
    Resolved
      {| workflowId := wf_id w; status := Error; startTime := t0;
         endTime := Some t0; duration := Some 0;
         logs := [ {| log_nodeId := None;
                      message := "🚀 Starting workflow: " +:+ wf_name w;
                      level := LevelInfo |};
                   {| log_nodeId := None;
                      message := "💥 Workflow failed: " +:+ errorMessage e;
                      level := LevelError |} ];
         nodeExecutions := ∅ |} ∧
  ∃ r, runWorkflow obs reg w env t0 = Some r ∧ trace r = [].
Proof.
  intros Hlog Hval.
  unfold startWorkflow, executeWorkflow, runWorkflow, runEngine, tryBody, log.
  rewrite Hval, !Hlog. simpl.
  unfold finish; simpl. rewrite Z.sub_diag. split; [done|]. by eexists.
Qed.


End Claims.

(** C2, as the code has it. [validateWorkflow] rejects a workflow without
    nodes and a workflow none of whose nodes has the starter id, and
    accepts every other workflow; it never reads the edges, so that
    cycles and edges to unknown nodes pass. *)
Theorem validateWorkflow_reads_nodes_only (w : Workflow) :
  (nodes w = [] → validateWorkflow w = Abrupt (ErrorObj "Workflow has no nodes")) ∧
  (nodes w ≠ [] → (∀ n, n ∈ nodes w → node_id n ≠ starterId w) →
     validateWorkflow w = Abrupt (ErrorObj "Start node not found")) ∧
  (∀ n, n ∈ nodes w → node_id n = starterId w → validateWorkflow w = Normal tt) ∧
  (∀ es, validateWorkflow
           {| wf_id := wf_id w; wf_name := wf_name w; nodes := nodes w;
              edges := es; starterId := starterId w |}
         = validateWorkflow w).
Proof.
  unfold validateWorkflow. split_and!.
  - by intros ->.
  - intros Hne Hall. destruct (nodes w) as [|n0 ns] eqn:Hn; [done|].
    destruct (findNode w (starterId w)) as [n|] eqn:Hf; [|done].
    apply findNode_Some in Hf as [Hin Hid]. rewrite Hn in Hin.
    by destruct (Hall n Hin).
  - intros n Hin Hid. destruct (nodes w) as [|n0 ns] eqn:Hn.
    { by apply elem_of_nil in Hin. }
    destruct (findNode w (starterId w)) as [n'|] eqn:Hf; [done|].
    rewrite <- Hn in Hin. by destruct (findNode_None _ _ _ Hf Hin).
  - done.
Qed.

Section NodeClaims.

Context (reg : string → option BlockConfig).

(** C4, as the code has it. When the block of a node returns a record,
    having changed the registry through [setNodeOutput] only, under keys
    other than [__proto__], the node's slot of the output registry
    becomes the values written through [setNodeOutput] merged with the
    returned record, the returned value winning on a common key. *)
Theorem returned_record_merged_into_slot (obs : Observers) (w : Workflow)
    (node : WorkflowNode) (env : gmap string string) (r r1 : Run) (b : Block)
    (fields : gmap string JsValue) :
  quiet obs →
  plainKey (node_id node) →
  blockOf reg w node env = Some b →
  accessorOnly b →
  Forall (λ kv, kv.1 ≠ "__proto__")
         (outputWrites obs b (node_id node) (announce obs node (enterNode node r)).1) →
  runBlock obs b (node_id node) (announce obs node (enterNode node r)).1
    = (r1, Normal (JObj fields)) →
  let r' := (executeNode obs reg w node env r).1 in
  let written :=
    applyWrites (outputWrites obs b (node_id node) (announce obs node (enterNode node r)).1)
                (slot (nodeOutputs r) (node_id node)) in
  (executeNode obs reg w node env r).2 = None ∧
  nodeOutputs r' !! node_id node = Some (fields ∪ written) ∧
  (∀ k v, fields !! k = Some v → slot (nodeOutputs r') (node_id node) !! k = Some v) ∧
  (∀ k, fields !! k = None → slot (nodeOutputs r') (node_id node) !! k = written !! k).
Proof.
  intros Hquiet _ Hb Hacc _.
  rewrite (executeNode_quiet obs Hquiet), (announce_quiet obs Hquiet),
    (runBlock_quiet obs Hquiet), (outputWrites_quiet obs Hquiet).
  intros Hrun r' written.
  assert (slot (nodeOutputs r1) (node_id node) = written) as Hw.
  { subst written. pose proof (runBlock_slot noObservers b (node_id node)
      (announce noObservers node (enterNode node r)).1 Hacc) as Hs.
    rewrite Hrun in Hs. simpl in Hs.
    rewrite Hs. f_equal. rewrite announce_noObservers. simpl.
    by destruct (isStarter node). }
  assert ((executeNode noObservers reg w node env r).2 = None ∧
          nodeOutputs r' !! node_id node = Some (fields ∪ written)) as [H2 Hslot].
  { subst r'. rewrite executeNode_noObservers, invokeBlock_noObservers. cbv zeta.
    rewrite Hb, Hrun. simpl.
    destruct (isStarter node); simpl; rewrite lookup_insert_eq, Hw; done. }
  split; [done|]. split; [done|]. unfold slot. rewrite Hslot. simpl. split.
  - intros k v Hk. by apply lookup_union_Some_l.
  - intros k Hk. by apply lookup_union_r.
Qed.


End NodeClaims.

(** ** Concrete runs *)

Ltac elem_of_list := vm_compute; repeat constructor.

Ltac not_elem_of_list H :=
  vm_compute in H;
  repeat (apply elem_of_cons in H as [H|H]; [discriminate H|]);
  by apply elem_of_nil in H.

(** C5, on S→A→X where the block of A throws: the run ends in [error],
    the failure of A is logged and X, behind A, never begins. *)
Lemma failure_stops_run_witness :
  ∃ r, runWorkflow noObservers sampleRegistry failWorkflow ∅ 0 = Some r ∧
       EvError "A" ∈ trace r ∧
       onlyThrough failWorkflow "A" "X" ∧
       status (execution r) = Error ∧
       (∃ l, l ∈ logs (execution r) ∧ log_nodeId l = Some "A" ∧ level l = LevelError) ∧
       EvStart "X" ∉ trace r.
Proof.
  eexists. split; [vm_compute; reflexivity|].
  assert (onlyThrough failWorkflow "A" "X") as Honly.
  { split; [done|]. intros p Hp.
    inversion Hp as [|p' m n Hp' [e [He [Hs Ht]]]]; subst.
    apply elem_of_app. left.
    vm_compute in He.
    repeat (apply elem_of_cons in He as [->|He]; [try discriminate Ht|]);
      [|by apply elem_of_nil in He].
    simpl in *.
    inversion Hp' as [|p'' m' n' Hp'' _]; subst.
    apply elem_of_app. right. by apply list_elem_of_singleton. }
  split; [elem_of_list|]. split; [exact Honly|].
  match goal with |- context [trace ?r] =>
    destruct (failure_stops_run sampleRegistry failWorkflow ∅ 0 r "A")
      as (Hst & Hlog & Hno & _); [vm_compute; reflexivity | elem_of_list |]
  end.
  split; [exact Hst|]. split; [exact Hlog|]. by apply Hno.
Defined.

(** C1 fails on the graph S→A→C, S→B→D→C, which is acyclic (every edge
    increases [joinRank]): the join C begins execution when its
    predecessor D has not yet begun. *)
Lemma join_starts_before_predecessor :
  Forall (λ e, (joinRank (source e) < joinRank (target e))%nat) (edges joinWorkflow) ∧
  ∃ r, runWorkflow noObservers sampleRegistry joinWorkflow ∅ 0 = Some r ∧
       startedIds (trace r) = ["S"; "A"; "B"; "C"; "D"] ∧
       ¬ startsAfterAll joinWorkflow (trace r).
Proof.
  split; [repeat constructor|].
  eexists. split; [vm_compute; reflexivity|]. split; [vm_compute; reflexivity|].
  intros Hall.
  match type of Hall with startsAfterAll _ ?t =>
    destruct (Hall (take 6 t) (drop 7 t) "C" "D") as [outs Hin]
  end.
  - vm_compute. reflexivity.
  - exists (mkEdge "D" "C"). split; [|done]. elem_of_list.
  - not_elem_of_list Hin.
Qed.

(** C2 fails on A→B→A and on an edge to an unknown node: both workflows
    pass validation, and both nodes of the cycle are executed. *)
Lemma cycle_and_dangling_edge_pass_validation :
  validateWorkflow cyclicWorkflow = Normal tt ∧
  validateWorkflow danglingWorkflow = Normal tt ∧
  ∃ r, runWorkflow noObservers sampleRegistry cyclicWorkflow ∅ 0 = Some r ∧
       startedIds (trace r) = ["A"; "B"] ∧
       status (execution r) = Success.
Proof.
  split; [reflexivity|]. split; [reflexivity|].
  eexists. split; [vm_compute; reflexivity|]. split; vm_compute; reflexivity.
Qed.

(** C3 fails on a workflow without its starter node: validation fails,
    yet the promise is resolved, with a record in status [error]. *)
Lemma validation_failure_is_not_thrown :
  validateWorkflow noStarterWorkflow = Abrupt (ErrorObj "Start node not found") ∧
  ∃ rec, startWorkflow noObservers sampleRegistry noStarterWorkflow ∅ 0 = Resolved rec ∧
         status rec = Error ∧ length (logs rec) = 2%nat.
Proof.
  split; [reflexivity|].
  eexists. split; [vm_compute; reflexivity|]. split; reflexivity.
Qed.

(** C3 as amended, on the workflow without its starter node, with
    observers that return. *)
Lemma validation_failure_resolves_with_error_record_witness :
  validateWorkflow noStarterWorkflow = Abrupt (ErrorObj "Start node not found") ∧
  ∃ rec, startWorkflow silentObservers sampleRegistry noStarterWorkflow ∅ 7 = Resolved rec ∧
         status rec = Error ∧ nodeExecutions rec = ∅ ∧ endTime rec = Some 7.
Proof.
  split; [reflexivity|].
  destruct (validation_failure_resolves_with_error_record sampleRegistry silentObservers
              noStarterWorkflow ∅ 7 (ErrorObj "Start node not found"))
    as [Hres _]; [reflexivity | reflexivity |].
  eexists. split; [exact Hres|]. split; [reflexivity|]. split; reflexivity.
Defined.

(** C8 as amended, on S→A→X where the block of A throws, with observers
    that return: the loop comes to A after one turn, and the promise is
    resolved with a record in status [error] that names the error of A. *)
Lemma run_resolves_with_terminal_record_witness :
  ∃ rec, startWorkflow silentObservers sampleRegistry failWorkflow ∅ 0 = Resolved rec ∧
         status rec = Error ∧
         (nodeExecutions rec !! "A") ≫= error = Some "boom" ∧
         last (logs rec) = Some (failedLog "boom").
Proof.
  destruct (run_resolves_with_terminal_record sampleRegistry silentObservers
              failWorkflow ∅ 0 quiet_silentObservers) as [_ H].
  pose (s := default (loopStart failWorkflow 0)
               (loopState silentObservers sampleRegistry failWorkflow ∅ 1
                  (loopStart failWorkflow 0))).
  pose (node := mkNode "A" "fail").
  destruct (H 1%nat s "A" [] node
              (invokeBlock silentObservers sampleRegistry failWorkflow node ∅
                 (enterNode node (run_state s))).1 (ErrorObj "boom"))
    as (rec & ne & pre & Hres & Hst & Hne & _ & Herr & Hlogs).
  - reflexivity.
  - reflexivity.
  - reflexivity.
  - reflexivity.
  - apply (bool_decide_unpack _). vm_compute. reflexivity.
  - reflexivity.
  - reflexivity.
  - exists rec. split; [exact Hres|]. split; [exact Hst|]. split.
    + rewrite Hne. simpl. exact Herr.
    + rewrite Hlogs.
      match goal with |- last (?l ++ [?a; ?b; ?c]) = _ =>
        replace (l ++ [a; b; c]) with ((l ++ [a; b]) ++ [c])
          by (by rewrite <- app_assoc)
      end.
      apply last_snoc.
Defined.

(** C8 fails when an observer throws: with an [onLog] that throws the
    promise of a run that passes validation is rejected, at the first
    entry of the log, or at the entries that report the failure of a
    node. *)
Lemma observer_exception_rejects_the_run :
  validateWorkflow failWorkflow = Normal tt ∧
  startWorkflow failingLog sampleRegistry failWorkflow ∅ 0
    = Rejected (ErrorObj "observer failed") ∧
  startWorkflow failingErrorLog sampleRegistry failWorkflow ∅ 0
    = Rejected (ErrorObj "observer failed").
Proof. split; [reflexivity|]. split; vm_compute; reflexivity. Qed.

(** An [onNodeUpdate] that throws when a node is entered ends the run in
    status [error] and leaves the record of the node [running]. *)
Lemma node_observer_exception_leaves_record_running :
  ∃ rec, startWorkflow failingUpdate sampleRegistry mergeWorkflow ∅ 0 = Resolved rec ∧
         status rec = Error ∧
         ne_status <$> nodeExecutions rec !! "M" = Some Running.
Proof. eexists. split; [vm_compute; reflexivity|]. split; vm_compute; reflexivity. Qed.

(** C4 on the example of the specification: a node that writes [{a:1}]
    through [setNodeOutput] and returns [{a:2,b:3}] ends with the slot
    [{a:2,b:3}]. *)
Lemma returned_record_merged_into_slot_witness :
  let r := initialRun mergeWorkflow 0 in
  let node := mkNode "M" "merge" in
  outputWrites silentObservers (SetNodeOutput "a" (JNum 1)
                  (Return (JObj (<[ "a" := JNum 2 ]> {[ "b" := JNum 3 ]}))))
               "M" (announce silentObservers node (enterNode node r)).1 = [("a", JNum 1)] ∧
  nodeOutputs (executeNode silentObservers sampleRegistry mergeWorkflow node ∅ r).1 !! "M"
  = Some (<[ "a" := JNum 2 ]> {[ "b" := JNum 3 ]}).
Proof.
  intros r node. split; [reflexivity|].
  set (b := SetNodeOutput "a" (JNum 1)
              (Return (JObj (<[ "a" := JNum 2 ]> {[ "b" := JNum 3 ]})))).
  destruct (returned_record_merged_into_slot sampleRegistry silentObservers mergeWorkflow
              node ∅ r
              (runBlock silentObservers b "M"
                 (announce silentObservers node (enterNode node r)).1).1 b
              (<[ "a" := JNum 2 ]> {[ "b" := JNum 3 ]}))
    as (_ & Hslot & _).
  - by split.
  - intros Hin. not_elem_of_list Hin.
  - reflexivity.
  - repeat constructor.
  - repeat constructor. discriminate.
  - reflexivity.
  - etrans; [exact Hslot|]. vm_compute. reflexivity.
Defined.

(** C4 fails on M→Q: the node M writes [{a:1}] and returns [{a:2,b:3}],
    and is recorded with these outputs; the block of Q then takes the
    slot of M from [getNodeOutput] and sets its key [a]; at the end of
    the run the slot of M is [{a:99,b:3}]. *)
Lemma later_node_changes_the_slot :
  ∃ r, runWorkflow noObservers moreRegistry mergeThenMeddle ∅ 0 = Some r ∧
       status (execution r) = Success ∧
       (nodeExecutions (execution r) !! "M") ≫= outputs
         = Some (<[ "a" := JNum 2 ]> {[ "b" := JNum 3 ]}) ∧
       nodeOutputs r !! "M" = Some (<[ "a" := JNum 99 ]> {[ "b" := JNum 3 ]}) ∧
       nodeOutputs r !! "M" ≠ Some (<[ "a" := JNum 2 ]> {[ "b" := JNum 3 ]}).
Proof.
  eexists. split; [vm_compute; reflexivity|].
  split; [vm_compute; reflexivity|]. split; [vm_compute; reflexivity|].
  split; [vm_compute; reflexivity|].
  intros Heq. apply (f_equal (λ o, o ≫= (.!! "a"))) in Heq. vm_compute in Heq.
  discriminate Heq.
Qed.





(** ** The network capability *)

(** C9, as the code has it. A call made through the capability without a
    signal of its own is settled at most 30 s after it starts, a fixed
    delay, and no later than the engine signal fires; when it is cut
    short, by the timer or by the engine signal, it fails with the same
    [AbortError]. A call made with a signal of its own is the platform's
    [fetch] under that signal, whatever the timer and the engine signal
    do. *)
Theorem capability_fetch_settles_within_30s (engineSignal : option AbortSignal)
    (init : option RequestInit) (net : Network) :
  init ≫= init_signal = None →
  match createFetchWithTimeout engineSignal init net with
  | Fulfilled t resp => net = Some (t, NetResponse resp) ∧ t < FETCH_TIMEOUT_MS
  | RejectedWith t err =>
      t ≤ FETCH_TIMEOUT_MS ∧
      (err = AbortError ∨ (err = NetworkError ∧ net = Some (t, NetFailure)))
  | Unsettled => False
  end ∧
  (∀ te, engineSignal = Some (Some te) →
     match createFetchWithTimeout engineSignal init net with
     | Fulfilled t _ | RejectedWith t _ => t ≤ Z.max 0 te
     | Unsettled => False
     end) ∧
  ∀ s, createFetchWithTimeout engineSignal (Some {| init_signal := Some s |}) net
       = fetch s net.
Proof.
  intros Hinit. split; [|split; [|done]].
  - unfold createFetchWithTimeout. rewrite Hinit.
    assert (∃ d, controllerSignal engineSignal = Some d ∧ 0 ≤ d ≤ FETCH_TIMEOUT_MS)
      as [d [-> Hd]].
    { unfold controllerSignal, FETCH_TIMEOUT_MS.
      destruct engineSignal as [[te|]|]; eexists; (split; [done|]); lia. }
    unfold fetch. destruct net as [[tn res]|].
    + destruct (Z.ltb_spec tn d).
      * destruct res; simpl; [split; [done|lia]|split; [lia|by right]].
      * split; [lia|by left].
    + split; [lia|by left].
  - intros te ->. unfold createFetchWithTimeout. rewrite Hinit. simpl.
    unfold fetch, FETCH_TIMEOUT_MS. destruct net as [[tn res]|].
    + destruct (Z.ltb_spec tn (Z.min 30000 (Z.max 0 te))).
      * destruct res; simpl; lia.
      * lia.
    + lia.
Qed.

(** C9 as amended, on a call without [init] to a server that never
    answers, in a run that is never stopped: the call is settled. *)
Lemma capability_fetch_settles_within_30s_witness :
  (None : option RequestInit) ≫= init_signal = None ∧
  createFetchWithTimeout (Some None) None None ≠ Unsettled.
Proof.
  split; [reflexivity|].
  destruct (capability_fetch_settles_within_30s (Some None) None None) as (H & _ & _);
    [reflexivity|].
  intros Heq. rewrite Heq in H. exact H.
Defined.

(** C9 fails three ways: a timed-out call and a cancelled call fail with
    the same error; a call made with a signal of its own that never
    fires, to a server that never answers, is never settled; and so is
    not cut short when the engine signal fires. *)
Lemma timeout_is_not_a_distinct_error :
  createFetchWithTimeout (Some None) None None = RejectedWith 30000 AbortError ∧
  createFetchWithTimeout (Some (Some 10)) None None = RejectedWith 10 AbortError ∧
  createFetchWithTimeout (Some None) (Some {| init_signal := Some None |}) None
    = Unsettled ∧
  createFetchWithTimeout (Some (Some 10)) (Some {| init_signal := Some None |}) None
    = Unsettled.
Proof. repeat split. Qed.

(** * Further properties of the engine *)

(** ** The log entries of a node *)

Lemma runBlock_logs obs b id r :
  ∃ extra, execution (runBlock obs b id r).1 = appendLogs extra (execution r) ∧
           Forall (λ l, log_nodeId l = Some id ∧ level l = LevelInfo) extra.
Proof.
  revert r.
  induction b as [v|e|key val k IH|nid key k IH|change k IH|msg k IH|k IH|ms stopped k IH];
    intros r; simpl.
  - exists []. by rewrite appendLogs_nil.
  - exists []. by rewrite appendLogs_nil.
  - apply (IH (withNodeOutputs (setNodeOutput id key val (nodeOutputs r)) r)).
  - apply IH.
  - apply (IH (withNodeOutputs (change (nodeOutputs r)) r)).
  - destruct (IH (notify (onLog obs)
                    {| log_nodeId := Some id; message := msg; level := LevelInfo |})
                 (logged r LevelInfo msg (Some id))) as [extra [He Hf]].
    eexists (_ :: extra). split.
    + rewrite He. simpl. unfold appendLogs, pushLog; simpl.
      by rewrite <- app_assoc.
    + by constructor.
  - apply IH.
  - destruct stopped.
    + apply (IH (stop (elapse ms r))).
    + apply (IH (elapse ms r)).
Qed.

Section NodeDetails.

Context (reg : string → option BlockConfig).

Lemma invokeBlock_logs w node env r :
  ∃ extra, execution (invokeBlock noObservers reg w node env r).1
             = appendLogs extra (execution r) ∧
           Forall (λ l, log_nodeId l = Some (node_id node) ∧ level l = LevelInfo) extra.
Proof.
  rewrite invokeBlock_noObservers, announce_noObservers. simpl.
  set (r1 := if isStarter node then r else _).
  assert (∃ extra, execution r1 = appendLogs extra (execution r) ∧
            Forall (λ l, log_nodeId l = Some (node_id node) ∧ level l = LevelInfo) extra)
    as [e1 [He1 Hf1]].
  { subst r1. destruct (isStarter node).
    - exists []. by rewrite appendLogs_nil.
    - eexists [_]. split; [done|]. by repeat constructor. }
  destruct (blockOf reg w node env) as [b|]; simpl.
  - destruct (runBlock_logs noObservers b (node_id node) r1) as [e2 [He2 Hf2]].
    exists (e1 ++ e2). split.
    + by rewrite He2, He1, appendLogs_app.
    + by apply Forall_app.
  - by exists e1.
Qed.

(** The log entries and the record that one call of [executeNode] adds. *)
Lemma executeNode_detail w node env r :
  ∃ extra ne,
    logs (execution (executeNode noObservers reg w node env r).1) = logs (execution r) ++ extra ∧
    Forall (λ l, log_nodeId l = Some (node_id node)) extra ∧
    nodeExecutions (execution (executeNode noObservers reg w node env r).1)
      = <[node_id node := ne]> (nodeExecutions (execution r)) ∧
    recordDone (node_id node) ne.
Proof.
  rewrite executeNode_noObservers. cbv zeta.
  destruct (invokeBlock_logs w node env (enterNode node r)) as [extra [He Hf]].
  assert (Forall (λ l, log_nodeId l = Some (node_id node)) extra) as Hf'.
  { eapply Forall_impl; [exact Hf|]. by intros l [? _]. }
  assert (∀ t1 outs, recordDone (node_id node) (successRecord node (now r) t1 outs))
    as Hsucc.
  { intros t1 outs. split; [done|]. split; [by eexists _, _|].
    left. split_and!; [done| by eexists |done]. }
  assert (∀ t1 msg, recordDone (node_id node)
            (failedRecord (runningRecord node (now r)) (now r) t1 msg))
    as Herr.
  { intros t1 msg. split; [done|]. split; [by eexists _, _|].
    right. split_and!; [done|done| by eexists]. }
  destruct (invokeBlock noObservers reg w node env (enterNode node r)) as [r1 [result|e]];
    simpl in He.
  - destruct (isStarter node), (isObjectLike result); simpl; rewrite He; simpl;
      rewrite ?insert_insert_eq.
    + exists extra. eexists. by split_and!.
    + exists extra. eexists. by split_and!.
    + eexists (extra ++ [_]). eexists. rewrite <- app_assoc. split_and!; try done.
      apply Forall_app. split; [done|]. by repeat constructor.
    + eexists (extra ++ [_]). eexists. rewrite <- app_assoc. split_and!; try done.
      apply Forall_app. split; [done|]. by repeat constructor.
  - simpl. rewrite He; simpl. rewrite insert_insert_eq.
    eexists (extra ++ [_]). eexists. rewrite <- app_assoc. split_and!; try done.
    apply Forall_app. split; [done|]. by repeat constructor.
Qed.

End NodeDetails.

(** ** Records and log along the loop *)

Lemma RunX_ext w r r' :
  RunX w r → trace r' = trace r →
  nodeExecutions (execution r') = nodeExecutions (execution r) → RunX w r'.
Proof. intros [H1 H2 H3 H4] Ht Hn. split; rewrite ?Ht, ?Hn; done. Qed.

Lemma start_in_segment t id stops fin x :
  Forall (eq EvStop) stops →
  (fin = EvError id ∨ ∃ outs, fin = EvSuccess id outs) →
  EvStart x ∈ t ++ EvStart id :: stops ++ [fin] ↔ EvStart x ∈ t ∨ x = id.
Proof.
  intros Hs Hfin. rewrite segment_elem. split.
  - intros [H|[H|[H|H]]]; [by left|right; by simplify_eq| |].
    + by apply (stops_elem _ _ Hs) in H.
    + by destruct Hfin as [->|[outs ->]].
  - intros [H| ->]; [by left|right; by left].
Qed.

Lemma nodeOutcome_fin id r' res fin ne :
  nodeOutcome id r' res fin ne → fin = EvError id ∨ ∃ outs, fin = EvSuccess id outs.
Proof.
  destruct res; simpl.
  - intros (_ & -> & _). by left.
  - intros (_ & outs & _ & ->). right. by eexists.
Qed.

Lemma RunX_node w r r' id res :
  RunX w r →
  is_Some (findNode w id) →
  (trace r = [] → id = starterId w) →
  NodeRan id r r' res →
  (∃ ne, nodeExecutions (execution r') = <[id := ne]> (nodeExecutions (execution r)) ∧
         recordDone id ne) →
  RunX w r'.
Proof.
  intros [Hrec Hshape Hfound Hfirst] Hnode Hst [_ _ Hev] [ne' [Hne' Hid]].
  destruct Hev as (stops & fin & ne & Htr & Hs & _ & Hne & Hout).
  pose proof (nodeOutcome_fin _ _ _ _ _ Hout) as Hfin.
  assert (ne' = ne) as ->.
  { assert (<[id:=ne']> (nodeExecutions (execution r)) !! id
            = <[id:=ne]> (nodeExecutions (execution r)) !! id) as Heq by congruence.
    rewrite !lookup_insert_eq in Heq. congruence. }
  split.
  - intros x. rewrite Htr, Hne, (start_in_segment _ _ _ _ _ Hs Hfin).
    destruct (decide (id = x)) as [->|Hx].
    + rewrite lookup_insert_eq. split; [by right|by eexists].
    + rewrite lookup_insert_ne by done. rewrite Hrec. split; [by left|].
      intros [?|?]; [done|congruence].
  - intros x nx. rewrite Hne. destruct (decide (id = x)) as [->|Hx].
    + rewrite lookup_insert_eq. by intros [= <-].
    + rewrite lookup_insert_ne by done. apply Hshape.
  - intros x. rewrite Htr, (start_in_segment _ _ _ _ _ Hs Hfin).
    intros [Hx| ->]; [by apply Hfound|done].
  - right. rewrite Htr. destruct Hfirst as [Hnil|[t Ht]].
    + rewrite Hnil, (Hst Hnil). by eexists.
    + rewrite Ht. by eexists.
Qed.

Section LoopDetails.

Context (reg : string → option BlockConfig) (w : Workflow) (env : gmap string string).
Context (Hstarter : is_Some (findNode w (starterId w))).

Lemma iteration_invX s :
  LoopInvX w s →
  match iteration noObservers reg w env s with
  | Continue s' => LoopInvX w s'
  | Done r => LoopPostX w (r, None)
  | Raise r e => LoopPostX w (r, Some e)
  end.
Proof.
  destruct s as [v q r]. intros [Hrun Hlogs Hvis Hq Hst].
  rewrite iteration_noObservers; simpl in *.
  destruct q as [|nid rest].
  { split; [done|]. simpl. split; [done|]. intros _.
    destruct Hst as [?|[Hin _]]; [done|]. by apply elem_of_nil in Hin. }
  destruct (aborted r) eqn:Ha.
  { split; simpl; [by eapply RunX_ext|]. split; [done|]. done. }
  destruct (decide (nid ∈ v)) as [Hin|Hnotin].
  { split; simpl; try done.
    - intros Hnil q' Hq'. apply (Hq Hnil). by right.
    - destruct Hst as [?|[Hin' Hnv]]; [by left|right].
      split; [|done]. apply elem_of_cons in Hin' as [Heq|?]; [|done].
      rewrite Heq in Hnv. contradiction. }
  destruct (findNode w nid) as [node|] eqn:Hfind.
  2:{ split; simpl; try done.
      - intros x Hx. apply elem_of_union. right. by apply Hvis.
      - intros Hnil q' Hq'. apply (Hq Hnil). by right.
      - destruct Hst as [?|[Hin' Hnv]]; [by left|right].
        apply elem_of_cons in Hin' as [Heq|Hin'].
        + rewrite Heq, Hfind in Hstarter. by destruct Hstarter.
        + split; [done|]. intros Hu. apply elem_of_union in Hu as [Hu|Hu]; [|done].
          apply elem_of_singleton in Hu. subst nid.
          rewrite Hfind in Hstarter. by destruct Hstarter. }
  pose proof Hfind as Hfind'.
  apply findNode_Some in Hfind as [Hnode Hid].
  pose proof (executeNode_ran reg w node env r) as Hran.
  pose proof (executeNode_detail reg w node env r) as (extra & ne & Hl & Hf & Hne & Hnid).
  rewrite Hid in Hran, Hf, Hne, Hnid.
  destruct (executeNode noObservers reg w node env r) as [r1 res]. simpl in *.
  assert (RunX w r1) as Hrun1.
  { eapply (RunX_node w r r1 nid res); try done.
    - intros Hnil. apply (Hq Hnil). by left.
    - by exists ne. }
  destruct Hlogs as [extra0 [Hl0 Hf0]].
  assert (Forall (λ l, is_Some (log_nodeId l)) (extra0 ++ extra)) as Hf1.
  { apply Forall_app. split; [done|]. eapply Forall_impl; [exact Hf|].
    intros l ->. by eexists. }
  destruct Hran as [_ _ Hev].
  destruct Hev as (stops & fin & ne0 & Htr & Hs & _ & _ & Hout).
  pose proof (nodeOutcome_fin _ _ _ _ _ Hout) as Hfin.
  destruct res as [e|].
  { split; simpl; [by eapply RunX_ext|].
    exists nid, (extra0 ++ extra). split; [|done].
    rewrite Hl, Hl0, Hid. simpl. by rewrite <- !app_assoc. }
  split; simpl.
  - done.
  - exists (extra0 ++ extra). split; [|done]. rewrite Hl, Hl0. done.
  - intros x. rewrite Htr, (start_in_segment _ _ _ _ _ Hs Hfin).
    intros [Hx| ->]; apply elem_of_union; [right; by apply Hvis|left].
    by apply elem_of_singleton.
  - rewrite Htr. intros Hnil. by destruct (trace r).
  - rewrite Htr, (start_in_segment _ _ _ _ _ Hs Hfin).
    destruct (decide (starterId w = nid)) as [Heq|Hneq]; [left; by right|].
    destruct Hst as [?|[Hin' Hnv]]; [left; by left|right].
    apply elem_of_cons in Hin' as [?|Hin']; [done|].
    split; [apply elem_of_app; by left|].
    intros Hu. apply elem_of_union in Hu as [Hu|Hu]; [|done].
    by apply elem_of_singleton in Hu.
Qed.

Lemma loop_soundX fuel s res :
  LoopInvX w s → loop noObservers reg fuel w env s = Some res → LoopPostX w res.
Proof.
  revert s. induction fuel as [|fuel IH]; intros s Hinv Hloop; simpl in Hloop; [done|].
  pose proof (iteration_invX s Hinv) as Hit.
  destruct (iteration noObservers reg w env s) as [s'|r|r e].
  - by eapply IH.
  - by simplify_eq.
  - by simplify_eq.
Qed.

End LoopDetails.

(** ** Records and log of the whole run *)

Lemma RunX_initial w r :
  trace r = [] → nodeExecutions (execution r) = ∅ → RunX w r.
Proof.
  intros Ht Hn. split; rewrite ?Ht, ?Hn.
  - intros id. rewrite lookup_empty. split; [by intros [? ?]|].
    intros H. by apply elem_of_nil in H.
  - intros id ne. by rewrite lookup_empty.
  - intros id H. by apply elem_of_nil in H.
  - by left.
Qed.

Section RunDetails.

Context (reg : string → option BlockConfig) (w : Workflow) (env : gmap string string).

Lemma runWorkflow_finalX t0 :
  ∃ r, runWorkflow noObservers reg w env t0 = Some r ∧ FinalX w r.
Proof.
  rewrite runWorkflow_noObservers. cbv zeta. rewrite tryBody_noObservers. cbv zeta.
  set (r0 := logged (initialRun w t0) LevelInfo _ None).
  destruct (validateWorkflow w) as [[]|e].
  2:{ eexists. split; [done|]. split; simpl.
      - by apply RunX_initial.
      - exists []. split; [done|]. right; right; right. split_and!; try done.
        by eexists.
      - done. }
  destruct (findNode w (starterId w)) as [start|] eqn:Hstart.
  2:{ eexists. split; [done|]. split; simpl.
      - by apply RunX_initial.
      - exists []. split; [done|]. right; right; right. split_and!; try done.
        by eexists.
      - done. }
  set (s0 := {| visited := ∅; queue := [node_id start];
                run_state := withNodeOutputs ∅ r0 |}).
  destruct (loop_terminates reg w env (loopFuel w) s0) as [[r1 exc] Hloop].
  { apply loopFuel_enough. }
  pose proof (findNode_Some _ _ _ Hstart) as [_ Hid].
  assert (LoopInv w s0) as Hinv by (by apply LoopInv_initial).
  assert (LoopInvX w s0) as HinvX.
  { split; simpl.
    - by apply RunX_initial.
    - exists []. by split.
    - intros x H. by apply elem_of_nil in H.
    - intros _ q Hq. apply list_elem_of_singleton in Hq. congruence.
    - right. rewrite Hid. split; [by apply list_elem_of_singleton|].
      apply not_elem_of_empty. }
  pose proof (loop_sound reg w env _ _ _ Hinv Hloop) as [_ Hpost].
  assert (is_Some (findNode w (starterId w))) as Hsome by (by eexists).
  pose proof (loop_soundX reg w env Hsome _ _ _ HinvX Hloop) as [HrunX HpostX].
  rewrite Hloop. simpl in *.
  destruct exc as [e|].
  { destruct HpostX as (a & extra & Hl & Hf).
    eexists. split; [done|]. split; simpl.
    - by eapply RunX_ext.
    - exists extra. split; [done|]. right; right; left. split; [done|].
      exists a, e. simpl. rewrite Hl. simpl. by rewrite <- app_assoc.
    - done. }
  destruct HpostX as [[extra [Hl Hf]] Hstarted].
  destruct Hpost as [_ [[Hst _]|[Hst _]]]; rewrite Hst.
  - eexists. split; [done|]. split; simpl.
    + by eapply RunX_ext.
    + exists extra. split; [done|]. left. split; [done|]. simpl. by rewrite Hl.
    + intros _. by apply Hstarted.
  - eexists. split; [done|]. split; simpl.
    + by eapply RunX_ext.
    + exists extra. split; [done|]. right; left. done.
    + by rewrite Hst.
Qed.

End RunDetails.

(** ** More on traces *)

Section TraceDetails.

Context (w : Workflow).

(** A node that began has ended, after it began. *)
Lemma TraceOK_closed t t1 t2 n :
  TraceOK w t → t = t1 ++ EvStart n :: t2 →
  (∃ outs, EvSuccess n outs ∈ t2) ∨ EvError n ∈ t2.
Proof.
  intros Ht. revert t1 t2.
  induction Ht as [|t id stops fin Ht IH Herr Hstop Hnew Hpred Hs Hfin];
    intros t1 t2 Heq.
  - by destruct t1.
  - apply segment_split in Heq as [[l [H1 H2]]|[[H1 [H2 H3]]|[l [H1 H2]]]].
    + destruct (IH _ _ H1) as [[o Ho]|He]; rewrite H2.
      * left. exists o. apply elem_of_app. by left.
      * right. apply elem_of_app. by left.
    + simplify_eq. destruct Hfin as [->|[outs ->]].
      * right. apply elem_of_app. right. by apply list_elem_of_singleton.
      * left. exists outs. apply elem_of_app. right. by apply list_elem_of_singleton.
    + assert (EvStart n ∈ stops ++ [fin]) as Hin.
      { rewrite H2. apply elem_of_app. right. by left. }
      apply elem_of_app in Hin as [Hin|Hin].
      * by apply (stops_elem _ _ Hs) in Hin.
      * apply list_elem_of_singleton in Hin. by destruct Hfin as [->|[outs ->]].
Qed.

Lemma TraceOK_started_closed t n :
  TraceOK w t → EvStart n ∈ t → succeeded t n ∨ EvError n ∈ t.
Proof.
  intros Ht Hn. apply list_elem_of_split in Hn as (t1 & t2 & ->).
  destruct (TraceOK_closed _ _ _ _ Ht eq_refl) as [[o Ho]|He].
  - left. exists o. apply elem_of_app. right. by right.
  - right. apply elem_of_app. right. by right.
Qed.

Lemma TraceOK_ended t : TraceOK w t → endedBefore t.
Proof.
  induction 1 as [|t id stops fin Ht IH Herr Hstop Hnew Hpred Hs Hfin];
    intros t1 t2 t3 n m Heq.
  - by destruct t1.
  - change (t1 ++ EvStart n :: t2 ++ EvStart m :: t3)
      with (t1 ++ (EvStart n :: t2) ++ EvStart m :: t3) in Heq.
    rewrite app_assoc in Heq.
    apply segment_split in Heq as [[l [H1 H2]]|[[H1 [H2 H3]]|[l [H1 H2]]]].
    + rewrite <- app_assoc in H1. by eapply IH.
    + symmetry in H1.
      destruct (TraceOK_closed _ _ _ _ Ht H1) as [?|He]; [done|].
      destruct (Herr n). rewrite H1. apply elem_of_app. right. by right.
    + assert (EvStart m ∈ stops ++ [fin]) as Hin.
      { rewrite H2. apply elem_of_app. right. by left. }
      apply elem_of_app in Hin as [Hin|Hin].
      * by apply (stops_elem _ _ Hs) in Hin.
      * apply list_elem_of_singleton in Hin. by destruct Hfin as [->|[outs ->]].
Qed.

Lemma reachNode_found n : reachNode w n → is_Some (findNode w n).
Proof.
  destruct 1 as [start Hs|m n' _ Hn _]; [by eexists|].
  destruct (findNode w (node_id n')) eqn:Hf; [by eexists|].
  by destruct (findNode_None _ _ _ Hf Hn).
Qed.

Lemma TraceOK_reach t :
  TraceOK w t → (∀ x, EvStart x ∈ t → is_Some (findNode w x)) →
  ∀ x, EvStart x ∈ t → reachNode w x.
Proof.
  induction 1 as [|t id stops fin Ht IH Herr Hstop Hnew Hpred Hs Hfin];
    intros Hfound x Hx.
  - by apply elem_of_nil in Hx.
  - assert (∀ y, EvStart y ∈ t → reachNode w y) as IH'.
    { apply IH. intros y Hy. apply Hfound. apply elem_of_app. by left. }
    apply (start_in_segment _ _ _ _ _ Hs Hfin) in Hx as [Hx| ->]; [by apply IH'|].
    destruct (Hfound id) as [node Hnode].
    { apply segment_elem. right. by left. }
    destruct Hpred as [->|[p [He [o Ho]]]].
    + by econstructor.
    + apply findNode_Some in Hnode as [Hin <-].
      apply (reach_edge w p node); [|done..].
      apply IH'. by eapply TraceOK_success_started.
Qed.

End TraceDetails.

(** ** Further properties of a run *)

Section RunProperties.

Context (reg : string → option BlockConfig).

Lemma run_facts w env t0 :
  ∃ r, runWorkflow noObservers reg w env t0 = Some r ∧ FinalOK w r ∧ FinalX w r.
Proof.
  destruct (runWorkflow_final reg w env t0) as [r [Hrun Hfin]].
  destruct (runWorkflow_finalX reg w env t0) as [r' [Hrun' HfinX]].
  assert (r' = r) as -> by congruence. by exists r.
Qed.

(** X1. The nodes that begin execution are nodes of the workflow that can
    be reached from the starter along edges between nodes of the
    workflow; the first node to begin is the starter; if no node id of
    the workflow is the name of a member of [Object.prototype], such an
    id has an execution record exactly when the node began. *)
Theorem only_reachable_nodes_execute (w : Workflow) (env : gmap string string) (t0 : Z) :
  ∃ r, runWorkflow noObservers reg w env t0 = Some r ∧
    (∀ x, EvStart x ∈ trace r → reachNode w x ∧ ∃ node, findNode w x = Some node) ∧
    (trace r = [] ∨ ∃ t, trace r = EvStart (starterId w) :: t) ∧
    (Forall (λ n, plainKey (node_id n)) (nodes w) →
     ∀ id, plainKey id →
       (is_Some (nodeExecutions (execution r) !! id) ↔ EvStart id ∈ trace r)).
Proof.
  destruct (run_facts w env t0) as (r & Hrun & Hfin & [HX _ _]).
  exists r. split; [done|]. split_and!.
  - intros x Hx. split; [|by apply HX].
    eapply TraceOK_reach; [apply Hfin|apply HX|done].
  - apply HX.
  - intros _ id _. apply HX.
Qed.

(** X2. If the run ends with status [success], every node that can be
    reached from the starter along edges between nodes of the workflow
    has been executed and has a record in status [success]. *)
Theorem success_covers_reachable_nodes (w : Workflow) (env : gmap string string) (t0 : Z) :
  ∃ r, runWorkflow noObservers reg w env t0 = Some r ∧
    (status (execution r) = Success →
     ∀ x, reachNode w x →
       ∃ ne outs, EvSuccess x outs ∈ trace r ∧
                  nodeExecutions (execution r) !! x = Some ne ∧
                  ne_status ne = Success ∧ outputs ne = Some outs).
Proof.
  destruct (run_facts w env t0) as (r & Hrun & Hfin & [HX _ Hstart]).
  exists r. split; [done|]. intros Hst x Hx.
  destruct (fin_success _ _ Hfin Hst) as [Hnoerr Hcomp].
  pose proof (ok_trace _ _ (fin_ok _ _ Hfin)) as Ht.
  assert (succeeded (trace r) x) as [outs Houts].
  { induction Hx as [start Hs|m n Hm IH Hn He].
    - destruct (TraceOK_started_closed w _ _ Ht (Hstart Hst)) as [?|He]; [done|].
      by apply Hnoerr in He.
    - destruct (TraceOK_started_closed w _ (node_id n) Ht) as [?|He']; [|done|].
      + by eapply Hcomp.
      + by apply Hnoerr in He'. }
  destruct (ok_success _ _ (fin_ok _ _ Hfin) x outs Houts) as (ne & ? & ? & ?).
  by exists ne, outs.
Qed.

(** X3. Nodes are executed one at a time: when a node begins, every node
    that began before it has reached [success]. *)
Theorem nodes_execute_one_at_a_time (w : Workflow) (env : gmap string string) (t0 : Z) :
  ∃ r, runWorkflow noObservers reg w env t0 = Some r ∧ endedBefore (trace r).
Proof.
  destruct (run_facts w env t0) as (r & Hrun & Hfin & _).
  exists r. split; [done|]. eapply TraceOK_ended. apply Hfin.
Qed.

(** X4. If no observer throws, every execution record of a finished run
    carries the id it is filed under, its start time, its end time and
    their difference as duration, and is either in status [success] with
    outputs and no error, or in status [error] with an error message and
    no outputs; it is never left [running]. At most one record is in
    status [error], and none if the run ended with status [success]. *)
Theorem records_of_a_finished_run (obs : Observers) (w : Workflow)
    (env : gmap string string) (t0 : Z) :
  quiet obs →
  ∃ r, runWorkflow obs reg w env t0 = Some r ∧
    (∀ id ne, nodeExecutions (execution r) !! id = Some ne →
       nodeId ne = id ∧
       (∃ t1 t2, ne_startTime ne = Some t1 ∧ ne_endTime ne = Some t2 ∧
                 ne_duration ne = Some (t2 - t1)) ∧
       ((ne_status ne = Success ∧ is_Some (outputs ne) ∧ error ne = None) ∨
        (ne_status ne = Error ∧ outputs ne = None ∧ is_Some (error ne)))) ∧
    (∀ a b na nb,
       nodeExecutions (execution r) !! a = Some na → ne_status na = Error →
       nodeExecutions (execution r) !! b = Some nb → ne_status nb = Error →
       a = b) ∧
    (status (execution r) = Success →
     ∀ id ne, nodeExecutions (execution r) !! id = Some ne → ne_status ne = Success).
Proof.
  intros Hquiet. rewrite (runWorkflow_quiet obs Hquiet).
  destruct (run_facts w env t0) as (r & Hrun & Hfin & [HX _ _]).
  pose proof (fin_ok _ _ Hfin) as Hok.
  exists r. split; [done|]. split_and!.
  - apply HX.
  - intros a b na nb Ha Hea Hb Heb.
    pose proof (ok_error_record _ _ Hok _ _ Ha Hea) as Ha'.
    pose proof (ok_error_record _ _ Hok _ _ Hb Heb) as Hb'.
    destruct (TraceOK_error_last w _ _ (ok_trace _ _ Hok) Ha') as [ta Hta].
    destruct (TraceOK_error_last w _ _ (ok_trace _ _ Hok) Hb') as [tb Htb].
    rewrite Hta in Htb. apply app_inj_tail in Htb as [_ Heq]. congruence.
  - intros Hst id ne Hne.
    destruct (rx_shape _ _ HX _ _ Hne) as (_ & _ & [[? _]|[Herr _]]); [done|].
    destruct (fin_success _ _ Hfin Hst) as [Hnoerr _].
    destruct (Hnoerr id). by eapply ok_error_record.
Qed.


(** X6. A run ends with status [cancelled] only if [stop] was called
    during it, and the abort flag is set exactly when [stop] was called;
    a run during which [stop] was not called ends in [success] or in
    [error]. *)
Theorem cancelled_only_after_stop (w : Workflow) (env : gmap string string) (t0 : Z) :
  ∃ r, runWorkflow noObservers reg w env t0 = Some r ∧
    (status (execution r) = Cancelled → EvStop ∈ trace r) ∧
    (aborted r = true ↔ EvStop ∈ trace r) ∧
    (EvStop ∉ trace r →
     status (execution r) = Success ∨ status (execution r) = Error).
Proof.
  destruct (run_facts w env t0) as (r & Hrun & Hfin & _).
  pose proof (ok_aborted _ _ (fin_ok _ _ Hfin)) as Hab.
  assert (status (execution r) = Cancelled → EvStop ∈ trace r) as Hc.
  { intros Hst. apply Hab. by apply (fin_cancelled _ _ Hfin). }
  exists r. split; [done|]. split_and!; [done..|].
  intros Hno. destruct (fin_terminal _ _ Hfin) as [?|[?|Hst]]; [by left|by right|].
  by destruct (Hno (Hc Hst)).
Qed.

End RunProperties.

(** ** Further properties of the execution of a node *)

Section NodeProperties.

Context (reg : string → option BlockConfig).





End NodeProperties.

(** ** The accessors of the output registry and the successors of a node *)

(** X11. What a node writes with [setNodeOutput] is what [getNodeOutput]
    then reads under that key, for a node id and a key that are no names
    of members of [Object.prototype], an id that is not ["*"] and a key
    that is not empty; the write changes no other key of the node and
    nothing that is read of another node. *)
Theorem written_output_is_read_back (m : gmap string (gmap string JsValue))
    (id key : string) (v : JsValue) :
  plainKey id → id ≠ "*" → plainKey key → key ≠ "" →
  getNodeOutput (setNodeOutput id key v m) id (Some key) = v ∧
  (∀ key', key' ≠ key → key' ≠ "" →
     getNodeOutput (setNodeOutput id key v m) id (Some key')
     = getNodeOutput m id (Some key')) ∧
  (∀ j k, j ≠ id → j ≠ "*" →
     getNodeOutput (setNodeOutput id key v m) j k = getNodeOutput m j k).
Proof.
  intros _ Hid _ Hkey. unfold getNodeOutput, setNodeOutput. split_and!.
  - rewrite decide_False by done. rewrite decide_False by done.
    rewrite lookup_insert_eq. by rewrite lookup_insert_eq.
  - intros key' Hk Hk'. rewrite !(decide_False (P := id = "*")) by done.
    rewrite !(decide_False (P := key' = "")) by done.
    rewrite lookup_insert_eq. rewrite lookup_insert_ne by congruence.
    unfold slot. destruct (m !! id); simpl; [done|]. by rewrite lookup_empty.
  - intros j k Hj Hj'. rewrite !(decide_False (P := j = "*")) by done.
    rewrite lookup_insert_ne by congruence. done.
Qed.

(** X12. At names that are none of a member of [Object.prototype],
    [getNodeOutput] gives [undefined] for a node without a slot and for
    a key that the slot does not have; with the id ["*"] it gives the
    whole registry whatever the key, and with an empty key the whole
    slot: a value written under the empty key, or by a node whose id is
    ["*"], is not read back by its key. *)
Theorem reads_outside_the_registry (m : gmap string (gmap string JsValue)) :
  (∀ id key, plainKey id → id ≠ "*" → m !! id = None →
     getNodeOutput m id key = JUndefined) ∧
  (∀ id key o, plainKey id → id ≠ "*" → plainKey key → key ≠ "" →
     m !! id = Some o → o !! key = None →
     getNodeOutput m id (Some key) = JUndefined) ∧
  (∀ key, getNodeOutput m "*" key = JObj (JObj <$> m)) ∧
  (∀ id v, plainKey id → id ≠ "*" →
     getNodeOutput (setNodeOutput id "" v m) id (Some "")
     = JObj (<[ "" := v ]> (slot m id))) ∧
  (∀ key v, plainKey key →
     getNodeOutput (setNodeOutput "*" key v m) "*" (Some key)
     = JObj (JObj <$> setNodeOutput "*" key v m)).
Proof.
  unfold getNodeOutput. split_and!.
  - intros id key _ Hid Hm. rewrite decide_False by done. rewrite Hm.
    destruct key as [k|]; [|done]. by destruct (decide (k = "")).
  - intros id key o _ Hid _ Hk Hm Ho. rewrite decide_False by done.
    rewrite decide_False by done. by rewrite Hm, Ho.
  - done.
  - intros id v _ Hid. rewrite decide_False by done. unfold setNodeOutput.
    by rewrite lookup_insert_eq.
  - done.
Qed.

(** X13. [getConnectedNodes] lists nodes of the workflow in the order of
    [workflow.nodes]: a node is listed exactly when an edge leads to its
    id from the given id, so that edges to unknown ids are ignored and
    several edges to one node list it once if the nodes are distinct;
    an id without outgoing edges has no successor. *)
Theorem getConnectedNodes_lists_existing_targets (w : Workflow) (x : string) :
  getConnectedNodes w x `sublist_of` nodes w ∧
  (∀ n, n ∈ getConnectedNodes w x ↔ n ∈ nodes w ∧ hasEdge w x (node_id n)) ∧
  (NoDup (nodes w) → NoDup (getConnectedNodes w x)) ∧
  ((∀ e, e ∈ edges w → source e ≠ x) → getConnectedNodes w x = []).
Proof.
  split_and!.
  - unfold getConnectedNodes. apply sublist_filter.
  - intros n. apply getConnectedNodes_elem.
  - intros Hnd. unfold getConnectedNodes. by apply NoDup_filter.
  - intros Hno. destruct (getConnectedNodes w x) as [|n l] eqn:Heq; [done|].
    assert (n ∈ getConnectedNodes w x) as Hn by (rewrite Heq; by left).
    apply getConnectedNodes_elem in Hn as [_ (e & He & Hs & _)].
    by destruct (Hno e He).
Qed.

(** ** The blocks *)

Lemma allWs_trimStart_aux n s :
  (String.length s ≤ n)%nat → allWs (trimStart s) = allWs s.
Proof.
  revert s. induction n as [|n IH]; intros s Hn.
  { destruct s; [done|simpl in Hn; lia]. }
  destruct s as [|c1 r1]; [done|]. simpl in Hn.
  cbn [trimStart allWs]. destruct (isWs1 c1) eqn:H1.
  { apply IH. lia. }
  destruct r1 as [|c2 r2]; simpl in Hn.
  { cbn [allWs]. by rewrite H1. }
  destruct (isWs2 c1 c2) eqn:H2.
  { apply IH. lia. }
  destruct r2 as [|c3 r3]; simpl in Hn.
  { cbn [allWs]. by rewrite H1, H2. }
  destruct (isWs3 c1 c2 c3) eqn:H3.
  { apply IH. lia. }
  cbn [allWs]. by rewrite H1, H2, H3.
Qed.

Lemma allWs_trimStart s : allWs (trimStart s) = allWs s.
Proof. by apply (allWs_trimStart_aux (String.length s)). Qed.

Lemma trimEnd_empty s : trimEnd s = "" ↔ allWs s = true.
Proof.
  destruct s as [|c r]; [done|]. cbn [trimEnd].
  destruct (allWs (String c r)); split; done.
Qed.

Lemma trim_empty s : trim s = "" ↔ allWs s = true.
Proof. unfold trim. by rewrite trimEnd_empty, allWs_trimStart. Qed.

Lemma evaluateExpression_allWs s : evaluateExpression s = negb (allWs s).
Proof.
  unfold evaluateExpression. destruct (allWs s) eqn:Hs.
  - apply trim_empty in Hs. by rewrite Hs.
  - destruct (trim s) eqn:Ht; [|done].
    apply trim_empty in Ht. congruence.
Qed.

Ltac bools_to_props H :=
  cbv zeta in H;
  repeat (rewrite ?orb_true_iff, ?andb_true_iff, ?N.leb_le, ?N.eqb_eq in H).

Lemma isWs1_spec c :
  isWs1 c = true → (Ascii.N_of_ascii c ≤ 32)%N.
Proof. unfold isWs1. intros H. bools_to_props H. lia. Qed.

Lemma allWs_bytes_aux n s c :
  (String.length s ≤ n)%nat → allWs s = true → In c (String.list_ascii_of_string s) →
  (Ascii.N_of_ascii c ≤ 32 ∨ 128 ≤ Ascii.N_of_ascii c)%N.
Proof.
  revert s. induction n as [|n IH]; intros s Hn Hs Hc.
  { destruct s; [done|simpl in Hn; lia]. }
  destruct s as [|c1 r1]; [done|]. simpl in Hn. cbn [allWs] in Hs.
  destruct (isWs1 c1) eqn:H1.
  { destruct Hc as [<-|Hc]; [left; by apply isWs1_spec|]. apply (IH r1); [lia|done..]. }
  destruct r1 as [|c2 r2]; [done|]. simpl in Hn.
  destruct (isWs2 c1 c2) eqn:H2.
  { unfold isWs2 in H2. bools_to_props H2.
    destruct Hc as [<-|[<-|Hc]]; [right; lia|right; lia|].
    apply (IH r2); [lia|done..]. }
  destruct r2 as [|c3 r3]; [done|]. simpl in Hn.
  destruct (isWs3 c1 c2 c3) eqn:H3; [|done].
  unfold isWs3 in H3. bools_to_props H3.
  destruct Hc as [<-|[<-|[<-|Hc]]]; [right; lia|right; lia|right; lia|].
  apply (IH r3); [lia|done..].
Qed.

Lemma allWs_ascii s :
  (∀ c, In c (String.list_ascii_of_string s) → isWs1 c = true) → allWs s = true.
Proof.
  induction s as [|c r IH]; [done|]. intros Hall. cbn [allWs].
  rewrite (Hall c) by (by left). apply IH. intros c' Hc'. apply Hall. by right.
Qed.

(** X14. [evaluateExpression] answers [true] exactly when the expression
    is not made of white space only, whatever the expression says: it is
    [true] as soon as the expression has a visible ASCII character, and
    [false] for the empty expression and for one made of ASCII white
    space. *)
Theorem evaluateExpression_tests_for_blank (s : string) :
  evaluateExpression s = negb (allWs s) ∧
  ((∃ c, In c (String.list_ascii_of_string s) ∧
         (33 ≤ Ascii.N_of_ascii c ≤ 126)%N) → evaluateExpression s = true) ∧
  ((∀ c, In c (String.list_ascii_of_string s) → isWs1 c = true) →
   evaluateExpression s = false).
Proof.
  split_and!.
  - apply evaluateExpression_allWs.
  - intros (c & Hc & Hr). rewrite evaluateExpression_allWs.
    destruct (allWs s) eqn:Hs; [|done].
    destruct (allWs_bytes_aux _ s c (le_n _) Hs Hc); lia.
  - intros Hall. by rewrite evaluateExpression_allWs, allWs_ascii.
Qed.

Section BlockProperties.

Context (reg : string → option BlockConfig).


Lemma jsString_orEmpty numberToString v shown :
  jsString numberToString v = Some shown →
  ∃ text, jsString numberToString (orEmpty v) = Some text ∧
          (∀ s, v = JStr s → text = s) ∧ (v = JUndefined → text = "").
Proof.
  intros Hv. destruct v; simpl in *; try (eexists; split; [eassumption|]; split;
    [by intros ? [= <-] || (intros; simplify_eq) | by intros [=]]).
  - exists "". by split_and!.
  - exists "". split_and!; [done| by intros ? [=] | done].
  - exists s. split_and!; [done| by intros ? [= <-] | by intros [=]].
Qed.

(** X16. Executing a node of type [condition], whose id is no name of a
    member of [Object.prototype], with the condition block and without
    observers, fails exactly when its expression cannot be
    converted to a string (an object with a property [toString] of its
    own, or an array that holds one), with the [TypeError] of the
    conversion.  Otherwise it succeeds, and its output [result], in the
    registry and in the record, is [true] exactly when the expression as
    a string is not blank: for an expression that is a string, whatever
    it says and whatever the other nodes have produced; it is [false]
    when the node has no expression. *)
Theorem condition_block_outputs (w : Workflow) (node : WorkflowNode)
    (env : gmap string string) (r : Run) (numberToString : Z → string)
    (conversionError : Thrown) (thrownToString : Thrown → option string) :
  reg "condition" = Some (conditionBlock numberToString conversionError thrownToString) →
  node_type node = "condition" →
  plainKey (node_id node) →
  let r' := (executeNode noObservers reg w node env r).1 in
  let expression := default JUndefined (node_data node !! "expression") in
  match jsString numberToString expression with
  | None =>
      (executeNode noObservers reg w node env r).2 = Some conversionError ∧
      nodeOutputs r' = nodeOutputs r ∧
      ∃ ne, nodeExecutions (execution r') !! node_id node = Some ne ∧
            ne_status ne = Error ∧ error ne = Some (errorMessage conversionError)
  | Some _ =>
      ∃ text, jsString numberToString (orEmpty expression) = Some text ∧
        let result := negb (allWs text) in
        (executeNode noObservers reg w node env r).2 = None ∧
        nodeOutputs r' !! node_id node
          = Some (<[ "result" := JBool result ]> (slot (nodeOutputs r) (node_id node))) ∧
        (∃ ne, nodeExecutions (execution r') !! node_id node = Some ne ∧
               ne_status ne = Success ∧
               outputs ne = Some (<[ "result" := JBool result ]>
                                    (slot (nodeOutputs r) (node_id node)))) ∧
        (∀ s, node_data node !! "expression" = Some (JStr s) → text = s) ∧
        (node_data node !! "expression" = None → result = false)
  end.
Proof.
  intros Hreg Hty _ r' expression. subst r'.
  unfold executeNode, invokeBlock, conclude, failNode, blockOf, announce, isStarter.
  rewrite Hty, Hreg. simpl. fold expression.
  destruct (jsString numberToString expression) as [shown|] eqn:Hshown; simpl.
  2:{ split_and!; try done. eexists. rewrite lookup_insert_eq. by split_and!. }
  destruct (jsString_orEmpty _ _ _ Hshown) as (text & Htext & Hstr & Hundef).
  exists text. split; [done|]. rewrite Htext. simpl.
  rewrite evaluateExpression_allWs.
  unfold setNodeOutput, slot; simpl. rewrite !lookup_insert_eq. simpl.
  assert (({["result" := JBool (negb (allWs text))]} : gmap string JsValue)
          ∪ <["result" := JBool (negb (allWs text))]>
              (default ∅ (nodeOutputs r !! node_id node))
          = <["result" := JBool (negb (allWs text))]>
              (default ∅ (nodeOutputs r !! node_id node)))
    as Hu.
  { rewrite <- insert_union_singleton_l. by rewrite insert_insert_eq. }
  rewrite Hu. split_and!; try done.
  - eexists. by split_and!.
  - intros s Hs. apply Hstr. subst expression. by rewrite Hs.
  - intros Hs. rewrite Hundef; [done|]. subst expression. by rewrite Hs.
Qed.

End BlockProperties.

(** ** More on the network capability *)

(** X17. Through the capability, without a signal of its own, a call
    whose answer comes before the 30 s and before the engine signal
    fires settles as the network does, at the same time; a call begun
    after the engine signal has fired is rejected at once with an
    [AbortError]. *)
Theorem capability_fetch_passes_answers (engineSignal : option AbortSignal)
    (init : option RequestInit) (net : Network) :
  init ≫= init_signal = None →
  (∀ tn res, net = Some (tn, res) → tn < FETCH_TIMEOUT_MS →
     (∀ te, engineSignal = Some (Some te) → tn < te) →
     createFetchWithTimeout engineSignal init net = settle tn res) ∧
  (∀ te, engineSignal = Some (Some te) → te ≤ 0 →
     (∀ tn res, net = Some (tn, res) → 0 ≤ tn) →
     createFetchWithTimeout engineSignal init net = RejectedWith 0 AbortError).
Proof.
  intros Hinit. unfold createFetchWithTimeout. rewrite Hinit. split.
  - intros tn res -> Htn Hte. unfold fetch, controllerSignal, FETCH_TIMEOUT_MS in *.
    destruct engineSignal as [[te|]|].
    + specialize (Hte te eq_refl).
      destruct (Z.ltb_spec tn (Z.min 30000 (Z.max 0 te))); [done|lia].
    + destruct (Z.ltb_spec tn 30000); [done|lia].
    + destruct (Z.ltb_spec tn 30000); [done|lia].
  - intros te -> Hte Hnet. unfold fetch, controllerSignal, FETCH_TIMEOUT_MS.
    replace (Z.min 30000 (Z.max 0 te)) with 0 by lia.
    destruct net as [[tn res]|]; [|done].
    specialize (Hnet tn res eq_refl).
    destruct (Z.ltb_spec tn 0); [lia|done].
Qed.

(** ** Concrete executions of a node *)

(** X4 on S→A→X where the block of A throws, with observers that
    return: no record is left [running]. *)
Lemma records_of_a_finished_run_witness :
  ∃ r, runWorkflow silentObservers sampleRegistry failWorkflow ∅ 0 = Some r ∧
       ∀ id ne, nodeExecutions (execution r) !! id = Some ne → ne_status ne ≠ Running.
Proof.
  destruct (records_of_a_finished_run sampleRegistry silentObservers failWorkflow ∅ 0
              quiet_silentObservers) as (r & Hrun & Hshape & _).
  exists r. split; [exact Hrun|]. intros id ne Hne.
  destruct (Hshape id ne Hne) as (_ & _ & [[Hst _]|[Hst _]]); rewrite Hst; discriminate.
Defined.

(** X17 on an answer after 120 ms in a run stopped after 500 ms. *)
Lemma capability_fetch_passes_answers_witness :
  createFetchWithTimeout (Some (Some 500)) None
    (Some (120, NetResponse {| resp_status := 200; resp_body := "ok" |}))
  = Fulfilled 120 {| resp_status := 200; resp_body := "ok" |}.
Proof.
  destruct (capability_fetch_passes_answers (Some (Some 500)) None
              (Some (120, NetResponse {| resp_status := 200; resp_body := "ok" |})))
    as [H _]; [reflexivity|].
  apply (H 120 (NetResponse {| resp_status := 200; resp_body := "ok" |}));
    [reflexivity | reflexivity |].
  intros te [= <-]. reflexivity.
Defined.



(** The assumption that the block keeps to the accessor is needed for the
    account of the slot: a block that writes [seen], takes its slot from
    [getNodeOutput], sets the key [a] of that object and throws has called
    [setNodeOutput] once, and leaves both keys in the slot. *)
Lemma direct_write_escapes_the_accessor :
  let b := SetNodeOutput "seen" (JNum 1)
             (GetNodeOutput "F" None (fun _ =>
                Mutate (fun m => <[ "F" := <[ "a" := JNum 1 ]> (slot m "F") ]> m)
                  (Throw (NonError (JStr "oops"))))) in
  let r := initialRun failWorkflow 0 in
  ¬ accessorOnly b ∧
  (runBlock noObservers b "F" r).2 = Abrupt (NonError (JStr "oops")) ∧
  outputWrites noObservers b "F" r = [("seen", JNum 1)] ∧
  slot (nodeOutputs (runBlock noObservers b "F" r).1) "F"
    = <[ "a" := JNum 1 ]> {[ "seen" := JNum 1 ]} ∧
  slot (nodeOutputs (runBlock noObservers b "F" r).1) "F"
    ≠ applyWrites (outputWrites noObservers b "F" r) (slot (nodeOutputs r) "F").
Proof.
  intros b r. split_and!.
  - intros Hacc. inversion Hacc as [| | ? ? ? Hk | | | |]; subst.
    inversion Hk as [| | | ? ? ? Hk' | | |]; subst.
    specialize (Hk' JUndefined). inversion Hk'.
  - vm_compute. reflexivity.
  - vm_compute. reflexivity.
  - vm_compute. reflexivity.
  - intros Heq. apply (f_equal (λ m, m !! "a")) in Heq. vm_compute in Heq.
    discriminate Heq.
Qed.


(** X11 on the key [a] of the node [n1]. *)
Lemma written_output_is_read_back_witness :
  getNodeOutput (setNodeOutput "n1" "a" (JNum 7) ∅) "n1" (Some "a") = JNum 7.
Proof.
  destruct (written_output_is_read_back ∅ "n1" "a" (JNum 7)) as [H _];
    [intros Hin; not_elem_of_list Hin | done | intros Hin; not_elem_of_list Hin | done |].
  exact H.
Defined.


(** X16 on the expression [false]: the condition is [true]. *)
Lemma condition_block_outputs_witness :
  let node := conditionNode "false" in
  let r := initialRun failWorkflow 0 in
  let r' := (executeNode noObservers moreRegistry failWorkflow node ∅ r).1 in
  (executeNode noObservers moreRegistry failWorkflow node ∅ r).2 = None ∧
  nodeOutputs r' !! "K" = Some {[ "result" := JBool true ]}.
Proof.
  intros node r r'.
  assert (plainKey "K") as Hplain by (intros Hin; not_elem_of_list Hin).
  pose proof (condition_block_outputs moreRegistry failWorkflow node ∅ r (fun _ => "0")
                sampleTypeError (fun _ => Some "Error") eq_refl eq_refl Hplain) as H.
  simpl in H. destruct H as (text & [= <-] & Hres & Hslot & _).
  split; [exact Hres|]. subst r'.
  change (node_id node) with "K" in Hslot. rewrite Hslot.
  vm_compute. reflexivity.
Defined.

(** The same on an expression that is an object with a property
    [toString]: the node fails with the [TypeError]. *)
Lemma condition_fails_on_odd_expression :
  let r := initialRun failWorkflow 0 in
  let r' := (executeNode noObservers moreRegistry failWorkflow oddConditionNode ∅ r).1 in
  (executeNode noObservers moreRegistry failWorkflow oddConditionNode ∅ r).2
    = Some sampleTypeError ∧
  (nodeExecutions (execution r') !! "K") ≫= error
    = Some "Cannot convert object to primitive value".
Proof.
  intros r r'.
  assert (plainKey "K") as Hplain by (intros Hin; not_elem_of_list Hin).
  pose proof (condition_block_outputs moreRegistry failWorkflow oddConditionNode ∅ r
                (fun _ => "0") sampleTypeError (fun _ => Some "Error") eq_refl eq_refl
                Hplain) as H.
  simpl in H. destruct H as (Hres & _ & ne & Hne & _ & Herr).
  split; [exact Hres|]. subst r'.
  change (node_id oddConditionNode) with "K" in Hne. rewrite Hne. simpl. exact Herr.
Qed.

(** ** The registry after a node has been executed *)



(** ** The order of the walk *)

Lemma reachIn_node w k y : reachIn w k y → ∃ n, n ∈ nodes w ∧ node_id n = y.
Proof.
  destruct 1 as [start Hs|k m n _ Hn _].
  - apply findNode_Some in Hs as [? ?]. by exists start.
  - by exists n.
Qed.

Section WalkOrder.

Context (reg : string → option BlockConfig) (w : Workflow) (env : gmap string string).

(** What has been visited of the workflow has succeeded. *)
Lemma visited_succeeded s k y :
  LoopInv w s → reachIn w k y → y ∈ visited s →
  succeeded (trace (run_state s)) y.
Proof.
  intros Hinv Hy Hv. destruct (reachIn_node _ _ _ Hy) as (n & Hn & <-).
  pose proof (li_started _ _ Hinv n Hn Hv) as Hst.
  destruct (TraceOK_started_closed w _ _ (ok_trace _ _ (li_ok _ _ Hinv)) Hst)
    as [?|He]; [done|].
  by destruct (li_no_error _ _ Hinv _ He).
Qed.

Lemma Frontier_advance s h qb :
  LoopInv w s → Frontier w s h [] qb → Frontier w s (S h) qb [].
Proof.
  intros Hinv [Hq Hnear Hfar Hdone Hlayer Htr]. split.
  - by rewrite app_nil_r.
  - done.
  - intros q Hq'. by apply elem_of_nil in Hq'.
  - intros y k Hy Hk. destruct (decide (k < h)%nat) as [Hlt|Hge]; [by eapply Hdone|].
    assert (k = h) as -> by lia.
    destruct (Hlayer y Hy) as [?|Hin]; [done|]. by apply elem_of_nil in Hin.
  - intros y Hy. inversion Hy as [|k m n Hm Hn He]; subst.
    assert (m ∈ visited s) as Hmv.
    { destruct (Hlayer m Hm) as [?|Hin]; [done|]. by apply elem_of_nil in Hin. }
    pose proof (visited_succeeded s _ _ Hinv Hm Hmv) as Hsucc.
    destruct (li_complete _ _ Hinv m n Hsucc Hn He) as [?|Hin]; [by left|right].
    by rewrite Hq in Hin.
  - done.
Qed.

Lemma nearerFirst_node (t : list Event) id stops fin :
  nearerFirst w t →
  Forall (eq EvStop) stops →
  (fin = EvError id ∨ ∃ outs, fin = EvSuccess id outs) →
  (∀ x k, reachIn w k x → (∀ j, reachIn w j id → (k < j)%nat) → succeeded t x) →
  nearerFirst w (t ++ EvStart id :: stops ++ [fin]).
Proof.
  intros Hold Hs Hfin Hnew t1 t2 y x k Heq Hx Hlt.
  apply segment_split in Heq as [[l [H1 H2]]|[[H1 [H2 H3]]|[l [H1 H2]]]].
  - by eapply Hold.
  - simplify_eq. by eapply Hnew.
  - assert (EvStart y ∈ stops ++ [fin]) as Hin.
    { rewrite H2. apply elem_of_app. right. by left. }
    apply elem_of_app in Hin as [Hin|Hin].
    + by apply (stops_elem _ _ Hs) in Hin.
    + apply list_elem_of_singleton in Hin. by destruct Hfin as [->|[outs ->]].
Qed.

Lemma iteration_frontier s h qa qb :
  LoopInv w s → Frontier w s h qa qb →
  match iteration noObservers reg w env s with
  | Continue s' => ∃ h' qa' qb', Frontier w s' h' qa' qb'
  | Done r => nearerFirst w (trace r)
  | Raise r e => nearerFirst w (trace r)
  end.
Proof.
  intros Hinv Hfr.
  assert (∃ h1 qa1 qb1, Frontier w s h1 qa1 qb1 ∧ (qa1 = [] → queue s = []))
    as (h1 & qa1 & qb1 & Hfr1 & Hne).
  { destruct qa as [|q qa'].
    - exists (S h), qb, []. split; [by apply Frontier_advance|].
      intros ->. by rewrite (fr_queue _ _ _ _ _ Hfr).
    - exists h, (q :: qa'), qb. by split. }
  clear Hfr h qa qb. destruct Hfr1 as [Hq Hnear Hfar Hdone Hlayer Htr].
  pose proof Hinv as [Hok Hrun Hnoerr Hvis Hstarted Hqinv Hcomp].
  destruct s as [v q r]. rewrite iteration_noObservers; simpl in *.
  destruct q as [|nid rest]; [done|].
  destruct qa1 as [|nid' qa']; [by specialize (Hne eq_refl)|].
  simpl in Hq. injection Hq as <- ->. clear Hne.
  assert (reachIn w h1 nid) as Hnid by (apply Hnear; by left).
  destruct (aborted r) eqn:Ha; [done|].
  destruct (decide (nid ∈ v)) as [Hin|Hnotin].
  { exists h1, qa', qb1. split; simpl; try done.
    - intros q Hq. apply Hnear. by right.
    - intros y Hy. destruct (Hlayer y Hy) as [?|Hy']; [by left|].
      apply elem_of_cons in Hy' as [->|?]; [by left|by right]. }
  destruct (findNode w nid) as [node|] eqn:Hfind.
  2:{ destruct (reachIn_node _ _ _ Hnid) as (n & Hn & Hid).
      by destruct (findNode_None _ _ _ Hfind Hn). }
  apply findNode_Some in Hfind as [Hnode Hid].
  pose proof (executeNode_ran reg w node env r) as Hran. rewrite Hid in Hran.
  destruct (executeNode noObservers reg w node env r) as [r1 res]. simpl in Hran.
  destruct Hran as [_ _ Hev].
  destruct Hev as (stops & fin & ne & Htr1 & Hs & _ & _ & Hout).
  pose proof (nodeOutcome_fin _ _ _ _ _ Hout) as Hfin.
  assert (nearerFirst w (trace r1)) as Htr'.
  { rewrite Htr1. apply nearerFirst_node; try done.
    intros x k Hx Hlt.
    apply (visited_succeeded {| visited := v; queue := nid :: qa' ++ qb1;
                                run_state := r |} k x Hinv Hx).
    simpl. eapply Hdone; [done|]. by apply Hlt. }
  destruct res as [e|]; [done|].
  exists h1, qa', (qb1 ++ (node_id <$>
    filter (λ n, node_id n ∉ {[nid]} ∪ v) (getConnectedNodes w nid))).
  split; simpl.
  - by rewrite app_assoc.
  - intros q Hq. apply Hnear. by right.
  - intros q Hq. apply elem_of_app in Hq as [Hq|Hq]; [by apply Hfar|].
    apply list_elem_of_fmap in Hq as [n [-> Hn]].
    apply list_elem_of_filter in Hn as [_ Hn].
    apply getConnectedNodes_elem in Hn as [Hn He].
    by eapply reachIn_S.
  - intros y k Hy Hk. apply elem_of_union. right. by eapply Hdone.
  - intros y Hy. destruct (Hlayer y Hy) as [?|Hy'].
    + left. apply elem_of_union. by right.
    + apply elem_of_cons in Hy' as [->|?]; [left|by right].
      apply elem_of_union. left. by apply elem_of_singleton.
  - done.
Qed.

Lemma loop_frontier fuel s res h qa qb :
  LoopInv w s → Frontier w s h qa qb →
  loop noObservers reg fuel w env s = Some res → nearerFirst w (trace res.1).
Proof.
  revert s h qa qb.
  induction fuel as [|fuel IH]; intros s h qa qb Hinv Hfr Hloop; simpl in Hloop; [done|].
  pose proof (iteration_inv reg w env s Hinv) as Hit.
  pose proof (iteration_frontier s h qa qb Hinv Hfr) as Hit'.
  destruct (iteration noObservers reg w env s) as [s'|r|r e].
  - destruct Hit' as (h' & qa' & qb' & Hfr'). by eapply IH.
  - by simplify_eq.
  - by simplify_eq.
Qed.

Lemma runWorkflow_nearerFirst t0 :
  ∃ r, runWorkflow noObservers reg w env t0 = Some r ∧ nearerFirst w (trace r).
Proof.
  assert (nearerFirst w []) as Hnil.
  { intros t1 t2 y x k Heq. by destruct t1. }
  rewrite runWorkflow_noObservers. cbv zeta. rewrite tryBody_noObservers. cbv zeta.
  set (r0 := logged (initialRun w t0) LevelInfo _ None).
  destruct (validateWorkflow w) as [[]|e]; [|by eexists].
  destruct (findNode w (starterId w)) as [start|] eqn:Hstart; [|by eexists].
  set (s0 := {| visited := ∅; queue := [node_id start];
                run_state := withNodeOutputs ∅ r0 |}).
  destruct (loop_terminates reg w env (loopFuel w) s0) as [[r1 exc] Hloop].
  { apply loopFuel_enough. }
  pose proof (findNode_Some _ _ _ Hstart) as [_ Hid].
  assert (LoopInv w s0) as Hinv by (by apply LoopInv_initial).
  assert (Frontier w s0 0 [node_id start] []) as Hfr.
  { split; simpl; try done.
    - intros q Hq. apply list_elem_of_singleton in Hq as ->. rewrite Hid.
      by econstructor.
    - intros q Hq. by apply elem_of_nil in Hq.
    - intros y k _ Hk. lia.
    - intros y Hy. right. inversion Hy; subst. rewrite Hid. by left. }
  pose proof (loop_frontier _ _ _ _ _ _ Hinv Hfr Hloop) as Htr.
  pose proof (loop_sound reg w env _ _ _ Hinv Hloop) as [_ Hpost].
  rewrite Hloop. simpl in *.
  destruct exc as [e|]; [by eexists|].
  destruct Hpost as [_ [[Hst _]|[Hst _]]]; rewrite Hst; by eexists.
Qed.

End WalkOrder.

Lemma TraceOK_fresh w t t1 t2 n :
  TraceOK w t → t = t1 ++ EvStart n :: t2 → ¬ succeeded t1 n.
Proof.
  intros Ht. revert t1 t2.
  induction Ht as [|t id stops fin Ht IH Herr Hstop Hnew Hpred Hs Hfin];
    intros t1 t2 Heq.
  - by destruct t1.
  - apply segment_split in Heq as [[l [H1 H2]]|[[H1 [H2 H3]]|[l [H1 H2]]]].
    + by eapply IH.
    + simplify_eq. intros [o Ho]. apply Hnew. by eapply TraceOK_success_started.
    + assert (EvStart n ∈ stops ++ [fin]) as Hin.
      { rewrite H2. apply elem_of_app. right. by left. }
      apply elem_of_app in Hin as [Hin|Hin].
      * by apply (stops_elem _ _ Hs) in Hin.
      * apply list_elem_of_singleton in Hin. by destruct Hfin as [->|[outs ->]].
Qed.

Lemma reachNode_reachIn w n : reachNode w n → ∃ k, reachIn w k n.
Proof.
  induction 1 as [start Hs|m n _ [k Hk] Hn He].
  - exists 0%nat. by econstructor.
  - exists (S k). by econstructor.
Qed.

Lemma reachIn_rank w (rank : string → nat) k n :
  rank (starterId w) = 0%nat →
  Forall (λ e, rank (target e) = S (rank (source e))) (edges w) →
  reachIn w k n → k = rank n.
Proof.
  intros H0 Hedges. induction 1 as [start Hs|k m n _ IH Hn (e & He & Hsrc & Htgt)].
  - done.
  - rewrite Forall_forall in Hedges. specialize (Hedges e He).
    rewrite Hsrc, Htgt in Hedges. by rewrite Hedges, IH.
Qed.

(** X19. The walk is breadth first. When a node begins, every node that
    lies fewer edges from the starter than it (along edges between nodes
    of the workflow) has succeeded; so a node never begins before one
    that is nearer to the starter. *)
Theorem nearer_nodes_succeed_first (reg : string → option BlockConfig) (w : Workflow)
    (env : gmap string string) (t0 : Z) :
  ∃ r, runWorkflow noObservers reg w env t0 = Some r ∧
    (∀ t1 t2 y x k, trace r = t1 ++ EvStart y :: t2 →
       reachIn w k x → (∀ j, reachIn w j y → (k < j)%nat) → succeeded t1 x) ∧
    (∀ t1 t2 t3 x y k, trace r = t1 ++ EvStart x :: t2 ++ EvStart y :: t3 →
       reachIn w k y → ¬ ∀ j, reachIn w j x → (k < j)%nat).
Proof.
  destruct (runWorkflow_nearerFirst reg w env t0) as (r & Hrun & Hnear).
  destruct (runWorkflow_final reg w env t0) as (r' & Hrun' & Hfin).
  assert (r' = r) as -> by congruence.
  exists r. split; [done|]. split; [done|].
  intros t1 t2 t3 x y k Heq Hy Hlt.
  destruct (Hnear _ _ _ _ _ Heq Hy Hlt) as [o Ho].
  change (t1 ++ EvStart x :: t2 ++ EvStart y :: t3)
    with (t1 ++ (EvStart x :: t2) ++ EvStart y :: t3) in Heq.
  rewrite app_assoc in Heq.
  apply (TraceOK_fresh w _ _ _ _ (ok_trace _ _ (fin_ok _ _ Hfin)) Heq).
  exists o. apply elem_of_app. by left.
Qed.

(** X20. In a layered workflow (the starter has rank 0 and every edge
    leads from rank [k] to rank [k + 1]) a node begins only after every
    node with an edge into it that can be reached from the starter has
    succeeded. *)
Theorem layered_workflow_waits_for_predecessors (reg : string → option BlockConfig)
    (w : Workflow) (env : gmap string string) (t0 : Z) (rank : string → nat) :
  rank (starterId w) = 0%nat →
  Forall (λ e, rank (target e) = S (rank (source e))) (edges w) →
  ∃ r, runWorkflow noObservers reg w env t0 = Some r ∧
    ∀ t1 t2 n p, trace r = t1 ++ EvStart n :: t2 →
      hasEdge w p n → reachNode w p → succeeded t1 p.
Proof.
  intros H0 Hedges.
  destruct (runWorkflow_nearerFirst reg w env t0) as (r & Hrun & Hnear).
  exists r. split; [done|].
  intros t1 t2 n p Heq (e & He & Hsrc & Htgt) Hp.
  destruct (reachNode_reachIn _ _ Hp) as [k Hk].
  apply (Hnear _ _ _ _ _ Heq Hk).
  intros j Hj.
  rewrite (reachIn_rank w rank _ _ H0 Hedges Hk), (reachIn_rank w rank _ _ H0 Hedges Hj).
  rewrite Forall_forall in Hedges. specialize (Hedges e He).
  rewrite Hsrc, Htgt in Hedges. lia.
Qed.

(** X20 on S→A→C, S→B→C: the join C begins after both A and B have
    succeeded. *)
Lemma layered_workflow_waits_for_predecessors_witness :
  ∃ r, runWorkflow noObservers sampleRegistry diamondWorkflow ∅ 0 = Some r ∧
    ∀ t1 t2 n p, trace r = t1 ++ EvStart n :: t2 →
      hasEdge diamondWorkflow p n → reachNode diamondWorkflow p → succeeded t1 p.
Proof.
  apply (layered_workflow_waits_for_predecessors sampleRegistry diamondWorkflow ∅ 0
           diamondRank).
  - reflexivity.
  - repeat constructor.
Defined.

(** X21. In a workflow where no edge leads to the starter and no node
    has edges from two different nodes, every node begins after every
    node with an edge into it has succeeded. *)
Theorem tree_workflow_waits_for_predecessors (reg : string → option BlockConfig)
    (w : Workflow) (env : gmap string string) (t0 : Z) :
  Forall (λ e, target e ≠ starterId w) (edges w) →
  Forall (λ e, Forall (λ e', target e = target e' → source e = source e') (edges w))
         (edges w) →
  ∃ r, runWorkflow noObservers reg w env t0 = Some r ∧ startsAfterAll w (trace r).
Proof.
  intros Hroot Huniq.
  destruct (runWorkflow_final reg w env t0) as (r & Hrun & Hfin).
  exists r. split; [done|].
  intros t1 t2 n p Heq (e & He & Hsrc & Htgt).
  rewrite Forall_forall in Hroot. rewrite Forall_forall in Huniq.
  destruct (TraceOK_order w _ (ok_trace _ _ (fin_ok _ _ Hfin)) _ _ _ Heq)
    as [->|(p' & (e' & He' & Hsrc' & Htgt') & Hsucc)].
  - by destruct (Hroot e He).
  - specialize (Huniq e He). rewrite Forall_forall in Huniq.
    specialize (Huniq e' He'). rewrite Hsrc, Hsrc', Htgt, Htgt' in Huniq.
    by rewrite (Huniq eq_refl).
Qed.

(** X21 on S→A, S→B, A→C. *)
Lemma tree_workflow_waits_for_predecessors_witness :
  ∃ r, runWorkflow noObservers sampleRegistry treeWorkflow ∅ 0 = Some r ∧
       startsAfterAll treeWorkflow (trace r).
Proof.
  apply (tree_workflow_waits_for_predecessors sampleRegistry treeWorkflow ∅ 0).
  - repeat constructor; discriminate.
  - repeat constructor; simpl; intros H; (reflexivity || discriminate H).
Defined.
